(** * The database quota driver (neutron/db/quota/driver.py)

    A shallow embedding of [DbQuotaDriver]: the quota-limit table, the
    reservation table, the limit checker and the reservation engine, with
    the properties of the driver's specification proved about them.

    Python integers are unbounded, so limits, usages and deltas are [Z].
    Dictionaries keyed by resource names are [gmap string _], Python sets of
    resource names are [gset string]; database tables are lists of rows in
    the order in which a query yields them. *)

From Stdlib Require Import ZArith.
From stdpp Require Import base option list sorting gmap strings.

Local Open Scope Z_scope.

(** ** Rows of the two tables (neutron.db.quota.models) *)

(** A [Quota] row is one per-tenant override of a resource's limit. *)
Record Quota := mkQuota {
  quota_tenant_id : string;
  quota_resource : string;
  quota_limit : Z
}.

(** A [Reservation] row with its [ResourceDelta] children: the amounts it
    provisionally consumes, per resource. *)
Record Reservation := mkReservation {
  resv_id : nat;
  resv_tenant_id : string;
  resv_expiration : Z;
  resv_deltas : gmap string Z
}.

(** The state of the store behind [context.session]. *)
Record DB := mkDB {
  quotas : list Quota;
  reservations : list Reservation;
  next_reservation_id : nat
}.

(** A registered resource: its [default] limit and its counting
    capability, [count(context, plugin, tenant_id, resync_usage=False)],
    which reads the clock and the store for a tenant. *)
Module BaseResource.
Record t := mk {
  default : Z;
  count : Z → DB → string → Z
}.
End BaseResource.

(** ** Exceptions and the driver's monad *)

Inductive exn :=
  | OverQuota (overs : list string)
  | InvalidQuotaValue (unders : list string)
  | TenantQuotaNotFound (tenant_id : string)
  | KeyError (key : string)
  | DBDeadlock
  | RetryRequest.

Inductive result (A : Type) :=
  | Return (a : A)
  | Raise (e : exn).
Arguments Return {A} a.
Arguments Raise {A} e.

(** Calls that leave the driver: what was counted, what was reclaimed, what
    was created, and how long the retry wrapper slept (milliseconds). *)
Inductive call :=
  | CountCall (resource : string)
  | RemoveExpiredCall (tenant_id : string)
  | CreateReservationCall (id : nat)
  | SleepCall (ms : Z).

(** What a request runs against.  Every function of the driver takes a
    [context]; all it is used for is to reach the store, so the world
    threaded through [M] stands for it: the store, the clock read by the
    store's expiry tests (milliseconds), the contention the store's next
    locking reads will meet ([true]: that read ends in a deadlock), and the
    calls made so far. *)
Record World := mkWorld {
  db : DB;
  utcnow : Z;
  contention : list bool;
  calls : list call
}.

(** Stateful, fallible code: a state monad over [World] whose runs end in
    [Return] or [Raise].  The state at a [Raise] is kept, so that the
    enclosing transaction can decide what to do with it. *)
Definition M (A : Type) : Type := World → result A * World.

Global Instance M_ret : MRet M := λ A a w, (Return a, w).
Global Instance M_bind : MBind M := λ A B f m w,
  match m w with
  | (Return a, w') => f a w'
  | (Raise e, w') => (Raise e, w')
  end.

Definition raise {A} (e : exn) : M A := λ w, (Raise e, w).
Definition get_db : M DB := λ w, (Return (db w), w).
Definition get_utcnow : M Z := λ w, (Return (utcnow w), w).
Definition put_db (d : DB) : M unit :=
  λ w, (Return tt, mkWorld d (utcnow w) (contention w) (calls w)).
Definition record (c : call) : M unit :=
  λ w, (Return tt, mkWorld (db w) (utcnow w) (contention w) (calls w ++ [c])).

(** [d[key]]: a dictionary subscript raises [KeyError] on a missing key. *)
Definition getitem {V} (d : gmap string V) (key : string) : M V :=
  match d !! key with
  | Some v => mret v
  | None => raise (KeyError key)
  end.

(** [with context.session.begin(): body] and
    [with db_api.autonested_transaction(context.session): body]: an
    exception that leaves the block rolls the store back to its state at
    entry; the calls already made stay made. *)
Definition transaction {A} (body : M A) : M A := λ w,
  match body w with
  | (Return a, w') => (Return a, w')
  | (Raise e, w') =>
      (Raise e, mkWorld (db w) (utcnow w') (contention w') (calls w'))
  end.

(** [sorted(names)] on a list of [str]: ascending by code points. *)
Definition sorted (names : list string) : list string :=
  merge_sort String.le names.

(** ** The quota-limit table *)

Definition quota_of_tenant (tenant_id : string) (q : Quota) : Prop :=
  quota_tenant_id q = tenant_id.

Global Instance quota_of_tenant_dec tenant_id q :
  Decision (quota_of_tenant tenant_id q).
Proof. unfold quota_of_tenant. apply _. Defined.

(** [get_tenant_quotas]: the defaults of the registry, overlaid with the
    tenant's rows in the order the query yields them. *)
Definition overlay (tenant_quota : gmap string Z) (item : Quota)
  : gmap string Z :=
  <[quota_resource item := quota_limit item]> tenant_quota.

Definition tenant_quotas_of (d : DB) (resources : gmap string BaseResource.t)
    (tenant_id : string) : gmap string Z :=
  let tenant_quota := BaseResource.default <$> resources in
  let q_qry := filter (quota_of_tenant tenant_id) (quotas d) in
  foldl overlay tenant_quota q_qry.

Definition get_tenant_quotas (resources : gmap string BaseResource.t)
    (tenant_id : string) : M (gmap string Z) :=
  d ← get_db; mret (tenant_quotas_of d resources tenant_id).

(** [delete_tenant_quota]: [Query.delete()] returns the number of rows it
    removed; zero is falsy. *)
Definition delete_tenant_quota (tenant_id : string) : M unit :=
  transaction (
    d ← get_db;
    let tenant_quotas := filter (quota_of_tenant tenant_id) (quotas d) in
    let remaining := filter (λ q, ¬ quota_of_tenant tenant_id q) (quotas d) in
    _ ← put_db (mkDB remaining (reservations d) (next_reservation_id d));
    if decide (length tenant_quotas = 0%nat)
    then raise (TenantQuotaNotFound tenant_id)
    else mret tt).

(** [update_quota_limit]: [.first()] is the first matching row; it is
    updated in place, and a new row is added when there is none. *)
Definition quota_matches (tenant_id resource : string) (q : Quota) : bool :=
  bool_decide (quota_tenant_id q = tenant_id ∧ quota_resource q = resource).

Fixpoint update_first (tenant_id resource : string) (limit : Z)
    (rows : list Quota) : option (list Quota) :=
  match rows with
  | [] => None
  | q :: rows' =>
      if quota_matches tenant_id resource q
      then Some (mkQuota (quota_tenant_id q) (quota_resource q) limit :: rows')
      else cons q <$> update_first tenant_id resource limit rows'
  end.

Definition update_quota_limit (tenant_id resource : string) (limit : Z)
  : M unit :=
  transaction (
    d ← get_db;
    match update_first tenant_id resource limit (quotas d) with
    | Some rows =>
        put_db (mkDB rows (reservations d) (next_reservation_id d))
    | None =>
        let tenant_quota := mkQuota tenant_id resource limit in
        put_db (mkDB (quotas d ++ [tenant_quota]) (reservations d)
                     (next_reservation_id d))
    end).

(** [get_all_quotas]: the dictionaries it returns hold limits under the
    resource names and the tenant's identifier under ["tenant_id"]. *)
Inductive quota_value :=
  | LimitValue (limit : Z)
  | TenantIdValue (tenant_id : string).

(** [all_tenant_quotas], a dictionary from tenants to dictionaries, as the
    list of its items in the order of insertion: [.get(tenant_id)], and an
    update of the dictionary stored under a tenant (the loop holds a
    reference to that dictionary and writes through it). *)
Fixpoint dict_get {V} (key : string) (d : list (string * V)) : option V :=
  match d with
  | [] => None
  | (k, v) :: d' => if decide (k = key) then Some v else dict_get key d'
  end.

Fixpoint dict_alter {V} (f : V → V) (key : string) (d : list (string * V))
  : list (string * V) :=
  match d with
  | [] => []
  | (k, v) :: d' =>
      if decide (k = key) then (k, f v) :: d'
      else (k, v) :: dict_alter f key d'
  end.

Definition record_quota (tenant_default : gmap string quota_value)
    (all_tenant_quotas : list (string * gmap string quota_value))
    (quota : Quota) : list (string * gmap string quota_value) :=
  let tenant_id := quota_tenant_id quota in
  let all_tenant_quotas :=
    match dict_get tenant_id all_tenant_quotas with
    | None =>
        let tenant_quota :=
          <["tenant_id" := TenantIdValue tenant_id]> tenant_default in
        all_tenant_quotas ++ [(tenant_id, tenant_quota)]
    | Some _ => all_tenant_quotas
    end in
  dict_alter (insert (quota_resource quota) (LimitValue (quota_limit quota)))
             tenant_id all_tenant_quotas.

Definition get_all_quotas (resources : gmap string BaseResource.t)
  : M (list (gmap string quota_value)) :=
  d ← get_db;
  let tenant_default :=
    (λ resource, LimitValue (BaseResource.default resource)) <$> resources in
  let all_tenant_quotas :=
    foldl (record_quota tenant_default) [] (quotas d) in
  mret all_tenant_quotas.*2.

(** ** The reservation store (neutron.db.quota.api)

    The driver calls three functions of the store's API whose code lies
    outside the driver's file. *)
Module quota_api.

Definition expired (now : Z) (r : Reservation) : Prop :=
  resv_expiration r < now.

Global Instance expired_dec now r : Decision (expired now r).
Proof. unfold expired. apply _. Defined.

(** The tenant's reservation rows that are expired ([is_expired = true])
    or still pending ([is_expired = false]) at [now]. *)
Definition selected (tenant_id : string) (is_expired : bool) (now : Z)
    (r : Reservation) : bool :=
  bool_decide (resv_tenant_id r = tenant_id)
  && bool_decide (bool_decide (expired now r) = is_expired).

(** The amounts the rows hold for one resource, and their total; a
    resource that no row mentions has no total. *)
Definition amounts (resource : string) (rows : list Reservation) : list Z :=
  omap (λ r, resv_deltas r !! resource) rows.

Definition total (amounts : list Z) : Z := foldr Z.add 0 amounts.

Definition total_reserved (rows : list Reservation) (resource : string)
  : option Z :=
  match amounts resource rows with
  | [] => None
  | l => Some (total l)
  end.

(** Modelled from the spec: [get_reservations_for_resources] is missing
    from the sources; the store "supports ... aggregate query of
    non-expired/expired deltas per tenant/resource", and what the engine
    obtains from it are the deltas of the tenant's expired reservations
    "across the remaining resource kinds".  The answer maps each of the
    named resources that some selected row mentions to the sum of the
    amounts of these rows. *)
Definition get_reservations_for_resources (tenant_id : string)
    (resources : gset string) (is_expired : bool) : M (gmap string Z) :=
  d ← get_db;
  now ← get_utcnow;
  let rows :=
    filter (λ r, selected tenant_id is_expired now r) (reservations d) in
  mret (map_imap (λ resource _, total_reserved rows resource)
                 (gset_to_gmap tt resources)).

(** Modelled from the spec: [remove_expired_reservations] is missing from
    the sources; reclamation is to "remove expired reservation rows for
    the tenant". *)
Definition remove_expired_reservations (tenant_id : string) : M unit :=
  _ ← record (RemoveExpiredCall tenant_id);
  d ← get_db;
  now ← get_utcnow;
  let kept :=
    filter (λ r, ¬ selected tenant_id true now r) (reservations d) in
  put_db (mkDB (quotas d) kept (next_reservation_id d)).

(** Modelled from the spec: [create_reservation] is missing from the
    sources; granting is to "create a new Reservation row (default expiry
    horizon fixed or configurable) and return its identifier", a row
    having a "unique id, tenant_id, mapping resource_kind → signed integer
    delta" and an "expiry timestamp".  The row itself is returned; it
    holds the identifier. *)
Definition create_reservation (ttl : Z) (tenant_id : string)
    (deltas : gmap string Z) : M Reservation :=
  d ← get_db;
  now ← get_utcnow;
  let id := next_reservation_id d in
  let resv := mkReservation id tenant_id (now + ttl) deltas in
  _ ← put_db (mkDB (quotas d) (reservations d ++ [resv]) (S id));
  _ ← record (CreateReservationCall id);
  mret resv.

End quota_api.

(** ** The usage counter *)

(** A locking read of the store: it ends in a deadlock when the store says
    so, and uses up that answer. *)
Definition lock_for_update : M unit := λ w,
  match contention w with
  | true :: rest =>
      (Raise DBDeadlock, mkWorld (db w) (utcnow w) rest (calls w))
  | false :: rest => (Return tt, mkWorld (db w) (utcnow w) rest (calls w))
  | [] => (Return tt, w)
  end.

(** [resources[resource].count(context, plugin, tenant_id,
    resync_usage=False)]: the write locks of [make_reservation] "are
    acquired by the count() method invoked on resources". *)
Definition count (resources : gmap string BaseResource.t)
    (resource tenant_id : string) : M Z :=
  res ← getitem resources resource;
  _ ← record (CountCall resource);
  _ ← lock_for_update;
  d ← get_db;
  now ← get_utcnow;
  mret (BaseResource.count res now d tenant_id).

(** ** The retry wrapper (oslo_db.api.wrap_db_retry) *)

(** Modelled from the spec: [db_api.is_deadlock] is missing from the
    sources; the store gives "a deadlock/contention error signal
    distinguishable from other failures". *)
Definition is_deadlock (e : exn) : bool :=
  match e with
  | DBDeadlock => true
  | _ => false
  end.

Definition sleep (ms : Z) : M unit := λ w,
  (Return tt,
   mkWorld (db w) (utcnow w + ms) (contention w) (calls w ++ [SleepCall ms])).

Section wrap_db_retry.
Context {A : Type}.
Variable max_retries : nat.
Variable retry_interval : Z.
Variable inc_retry_interval : bool.
Variable retry_on_request : bool.
Variable exception_checker : exn → bool.

Definition is_exception_expected (e : exn) : bool :=
  match e with
  | RetryRequest => retry_on_request
  | _ => exception_checker e
  end.

Definition following (interval : Z) : Z :=
  if inc_retry_interval then 2 * interval else interval.

(** Modelled from the spec: [wrap_db_retry] is missing from the sources;
    it is "a higher-order function ... taking the operation, a maximum
    attempt count, a base interval, and a predicate identifying retryable
    failures": transient failures "are retried locally and only surfaced
    after exhaustion", with "bounded exponential backoff (fixed small base
    interval, increasing, bounded attempt count)"; any other outcome is
    the caller's at once. *)
Fixpoint retry_loop (remaining : nat) (next_interval : Z) (f : M A)
  : M A := λ w,
  match f w with
  | (Return a, w') => (Return a, w')
  | (Raise e, w') =>
      match remaining with
      | O => (Raise e, w')
      | S remaining' =>
          if is_exception_expected e
          then match sleep next_interval w' with
               | (_, w'') =>
                   retry_loop remaining' (following next_interval) f w''
               end
          else (Raise e, w')
      end
  end.

Definition wrap_db_retry (f : M A) : M A :=
  retry_loop max_retries retry_interval f.
End wrap_db_retry.

(** ** The reservation engine *)

Definition _handle_expired_reservations (tenant_id : string) : M unit :=
  quota_api.remove_expired_reservations tenant_id.

(** The dictionary comprehension that gathers [current_usages]. *)
Fixpoint count_usages (resources : gmap string BaseResource.t)
    (tenant_id : string) (requested_resources : list string)
    (current_usages : gmap string Z) : M (gmap string Z) :=
  match requested_resources with
  | [] => mret current_usages
  | resource :: rest =>
      usage ← count resources resource tenant_id;
      count_usages resources tenant_id rest
                   (<[resource := usage]> current_usages)
  end.

(** The loop that verifies the request against the current limits. *)
Fixpoint check_headroom (tenant_id : string)
    (current_limits current_usages expired_deltas deltas : gmap string Z)
    (requested_resources : list string) (resources_over_limit : list string)
  : M (list string) :=
  match requested_resources with
  | [] => mret resources_over_limit
  | resource :: rest =>
      let expired_reservations := default 0 (expired_deltas !! resource) in
      usage ← getitem current_usages resource;
      let total_usage := usage - expired_reservations in
      limit ← getitem current_limits resource;
      let res_headroom := limit - total_usage in
      delta ← getitem deltas resource;
      let resources_over_limit :=
        if decide (res_headroom < delta)
        then resources_over_limit ++ [resource]
        else resources_over_limit in
      _ ← (if decide (expired_reservations ≠ 0)
           then _handle_expired_reservations tenant_id
           else mret tt);
      check_headroom tenant_id current_limits current_usages expired_deltas
                     deltas rest resources_over_limit
  end.

Section Driver.
(** [db_api.MAX_RETRIES] and the expiry horizon of a new reservation are
    fixed outside the driver. *)
Variable MAX_RETRIES : nat.
Variable RESERVATION_TTL : Z.

(** The body of [make_reservation]. The [plugin] argument is only handed
    on to the counting capability and is left out. *)
Definition make_reservation_once (tenant_id : string)
    (resources : gmap string BaseResource.t) (deltas : gmap string Z)
  : M Reservation :=
  let requested_resources := dom deltas in
  transaction (
    current_limits ← get_tenant_quotas resources tenant_id;
    let unlimited_resources : gset string :=
      dom (filter (λ item, item.2 < 0) current_limits) in
    let requested_resources := requested_resources ∖ unlimited_resources in
    current_usages ←
      count_usages resources tenant_id (elements requested_resources) ∅;
    expired_deltas ←
      quota_api.get_reservations_for_resources
        tenant_id requested_resources true;
    resources_over_limit ←
      check_headroom tenant_id current_limits current_usages expired_deltas
                     deltas (elements requested_resources) [];
    match resources_over_limit with
    | _ :: _ => raise (OverQuota (sorted resources_over_limit))
    | [] => quota_api.create_reservation RESERVATION_TTL tenant_id deltas
    end).

(** [make_reservation] as decorated: retried on deadlocks, starting at a
    tenth of a second. *)
Definition make_reservation (tenant_id : string)
    (resources : gmap string BaseResource.t) (deltas : gmap string Z)
  : M Reservation :=
  wrap_db_retry MAX_RETRIES 100 true true is_deadlock
    (make_reservation_once tenant_id resources deltas).
End Driver.

(** Python does not say in which order it iterates a set.  The body of
    [make_reservation] iterates [requested_resources] twice, to count and
    to verify; [order] is the enumeration of the set the interpreter
    happens to use.  [make_reservation_once] is the body under the
    enumeration of [elements]. *)
Definition make_reservation_iterating (order : list string → list string)
    (RESERVATION_TTL : Z) (tenant_id : string)
    (resources : gmap string BaseResource.t) (deltas : gmap string Z)
  : M Reservation :=
  let requested_resources := dom deltas in
  transaction (
    current_limits ← get_tenant_quotas resources tenant_id;
    let unlimited_resources : gset string :=
      dom (filter (λ item, item.2 < 0) current_limits) in
    let requested_resources := requested_resources ∖ unlimited_resources in
    current_usages ←
      count_usages resources tenant_id
                   (order (elements requested_resources)) ∅;
    expired_deltas ←
      quota_api.get_reservations_for_resources
        tenant_id requested_resources true;
    resources_over_limit ←
      check_headroom tenant_id current_limits current_usages expired_deltas
                     deltas (order (elements requested_resources)) [];
    match resources_over_limit with
    | _ :: _ => raise (OverQuota (sorted resources_over_limit))
    | [] => quota_api.create_reservation RESERVATION_TTL tenant_id deltas
    end).

(** ** The limit checker *)

Definition _get_quotas (tenant_id : string)
    (resources : gmap string BaseResource.t) : M (gmap string Z) :=
  get_tenant_quotas resources tenant_id.

(** The list comprehension that gathers [overs]; the subscript [quotas[key]]
    is evaluated for every item. *)
Fixpoint collect_overs (quotas : gmap string Z) (items : list (string * Z))
  : M (list string) :=
  match items with
  | [] => mret []
  | (key, val) :: rest =>
      limit ← getitem quotas key;
      overs ← collect_overs quotas rest;
      mret (if bool_decide (0 ≤ limit ∧ limit < val) then key :: overs
            else overs)
  end.

Definition limit_check (tenant_id : string)
    (resources : gmap string BaseResource.t) (values : gmap string Z)
  : M unit :=
  let unders := (filter (λ item, item.2 < 0) (map_to_list values)).*1 in
  match unders with
  | _ :: _ => raise (InvalidQuotaValue (sorted unders))
  | [] =>
      quotas ← _get_quotas tenant_id resources;
      overs ← collect_overs quotas (map_to_list values);
      match overs with
      | _ :: _ => raise (OverQuota (sorted overs))
      | [] => mret tt
      end
  end.

(** * Properties *)

(** ** Running the monad *)

Lemma bind_Return {A B} (m : M A) (f : A → M B) w a w' :
  m w = (Return a, w') → (m ≫= f) w = f a w'.
Proof. intros Hm. unfold mbind, M_bind. by rewrite Hm. Qed.

Lemma bind_Raise {A B} (m : M A) (f : A → M B) w e w' :
  m w = (Raise e, w') → (m ≫= f) w = (Raise e, w').
Proof. intros Hm. unfold mbind, M_bind. by rewrite Hm. Qed.

Lemma getitem_Some {V} (d : gmap string V) key v w :
  d !! key = Some v → getitem d key w = (Return v, w).
Proof. intros Hd. unfold getitem. by rewrite Hd. Qed.

Lemma getitem_None {V} (d : gmap string V) key w :
  d !! key = None → getitem d key w = (Raise (KeyError key), w).
Proof. intros Hd. unfold getitem. by rewrite Hd. Qed.

Lemma World_eta w : mkWorld (db w) (utcnow w) (contention w) (calls w) = w.
Proof. by destruct w. Qed.

Lemma DB_eta d : mkDB (quotas d) (reservations d) (next_reservation_id d) = d.
Proof. by destruct d. Qed.

(** ** The quota-limit table *)

Section QuotaTable.
Implicit Types (rows : list Quota) (m : gmap string Z).

Lemma overlay_lookup_other m rows k :
  (∀ q, q ∈ rows → quota_resource q ≠ k) →
  foldl overlay m rows !! k = m !! k.
Proof.
  revert m. induction rows as [|q rows IH]; intros m Hk; [done|].
  simpl. rewrite IH.
  - unfold overlay. apply lookup_insert_ne, Hk. left.
  - intros q' Hq'. apply Hk. by right.
Qed.

Lemma overlay_lookup_unique m rows q :
  NoDup (quota_resource <$> rows) → q ∈ rows →
  foldl overlay m rows !! quota_resource q = Some (quota_limit q).
Proof.
  revert m. induction rows as [|q0 rows IH]; intros m Hnd Hq.
  { by apply elem_of_nil in Hq. }
  rewrite fmap_cons in Hnd. apply NoDup_cons in Hnd as [Hq0 Hnd].
  apply elem_of_cons in Hq as [->|Hq]; simpl.
  - rewrite overlay_lookup_other.
    + unfold overlay. apply lookup_insert_eq.
    + intros q' Hq' Heq. apply Hq0. rewrite <- Heq.
      by apply list_elem_of_fmap_2.
  - by apply IH.
Qed.

Lemma overlay_dom m rows k :
  k ∈ dom (foldl overlay m rows) ↔
  k ∈ dom m ∨ ∃ q, q ∈ rows ∧ quota_resource q = k.
Proof.
  revert m. induction rows as [|q rows IH]; intros m; simpl.
  { split; [by left|]. intros [?|(q & Hq & _)]; [done|].
    by apply elem_of_nil in Hq. }
  rewrite IH. unfold overlay. rewrite dom_insert, elem_of_union,
    elem_of_singleton.
  split.
  - intros [[->|?]|(q' & Hq' & <-)]; [right|by left|right].
    + exists q. split; [left|done].
    + exists q'. split; [by right|done].
  - intros [?|(q' & Hq' & <-)]; [left; by right|].
    apply elem_of_cons in Hq' as [->|Hq']; [left; by left|].
    right. by exists q'.
Qed.

(** The store holds at most one override per tenant and resource. *)
Definition quota_key (q : Quota) : string * string :=
  (quota_tenant_id q, quota_resource q).

Definition one_row_per_key rows : Prop := NoDup (quota_key <$> rows).

Global Instance one_row_per_key_dec rows : Decision (one_row_per_key rows).
Proof. unfold one_row_per_key. apply _. Defined.

Lemma tenant_rows_unique rows tenant_id :
  one_row_per_key rows →
  NoDup (quota_resource <$> filter (quota_of_tenant tenant_id) rows).
Proof.
  unfold one_row_per_key.
  induction rows as [|q rows IH]; intros Hnd; [constructor|].
  rewrite fmap_cons in Hnd. apply NoDup_cons in Hnd as [Hq Hnd].
  rewrite filter_cons. destruct (decide _) as [Ht|]; [|by apply IH].
  rewrite fmap_cons. apply NoDup_cons. split; [|by apply IH].
  intros Hin. apply Hq.
  apply list_elem_of_fmap in Hin as (q' & Hres & Hq').
  apply list_elem_of_filter in Hq' as [Ht' Hq'].
  apply list_elem_of_fmap. exists q'. split; [|done].
  unfold quota_key, quota_of_tenant in *. congruence.
Qed.

Lemma quota_matches_spec tenant_id resource q :
  quota_matches tenant_id resource q = true ↔
  quota_key q = (tenant_id, resource).
Proof.
  unfold quota_matches, quota_key. rewrite bool_decide_eq_true.
  split; [intros [-> ->]; done|]. by intros [= -> ->].
Qed.

Lemma update_first_Some tenant_id resource limit rows rows' :
  update_first tenant_id resource limit rows = Some rows' →
  quota_key <$> rows' = quota_key <$> rows ∧
  mkQuota tenant_id resource limit ∈ rows'.
Proof.
  revert rows'. induction rows as [|q rows IH]; intros rows'; [done|].
  simpl. destruct (quota_matches _ _ q) eqn:Hm.
  - intros [= <-]. apply quota_matches_spec in Hm.
    unfold quota_key in Hm. injection Hm as Ht Hr. split.
    + by rewrite !fmap_cons.
    + rewrite Ht, Hr. left.
  - destruct (update_first _ _ _ rows) as [rows''|]; [|done].
    intros [= <-]. destruct (IH rows'' eq_refl) as [Hk Hin]. split.
    + rewrite !fmap_cons. by f_equal.
    + by right.
Qed.

Lemma update_first_None tenant_id resource limit rows :
  update_first tenant_id resource limit rows = None →
  (tenant_id, resource) ∉ quota_key <$> rows.
Proof.
  induction rows as [|q rows IH]; simpl; [intros _; apply not_elem_of_nil|].
  destruct (quota_matches _ _ q) eqn:Hm; [done|].
  destruct (update_first _ _ _ rows); [done|]. intros _.
  apply not_elem_of_cons. split; [|by apply IH].
  intros Heq. apply not_true_iff_false in Hm. apply Hm.
  by apply quota_matches_spec.
Qed.

(** What [update_quota_limit] leaves in the table. *)
Definition updated_quotas tenant_id resource limit rows : list Quota :=
  match update_first tenant_id resource limit rows with
  | Some rows' => rows'
  | None => rows ++ [mkQuota tenant_id resource limit]
  end.

Lemma update_quota_limit_run tenant_id resource limit w :
  update_quota_limit tenant_id resource limit w =
  (Return tt,
   mkWorld (mkDB (updated_quotas tenant_id resource limit (quotas (db w)))
                 (reservations (db w)) (next_reservation_id (db w)))
           (utcnow w) (contention w) (calls w)).
Proof.
  unfold update_quota_limit, transaction, updated_quotas, mbind, M_bind,
    get_db, put_db.
  by destruct (update_first _ _ _ _).
Qed.

Lemma updated_quotas_unique tenant_id resource limit rows :
  one_row_per_key rows →
  one_row_per_key (updated_quotas tenant_id resource limit rows).
Proof.
  unfold one_row_per_key, updated_quotas. intros Hnd.
  destruct (update_first _ _ _ rows) as [rows'|] eqn:Hu.
  - apply update_first_Some in Hu as [-> _]. done.
  - apply update_first_None in Hu.
    rewrite fmap_app. apply NoDup_app. split_and!; [done| |].
    + intros k Hk Hk'. apply list_elem_of_singleton in Hk'.
      by subst.
    + apply NoDup_singleton.
Qed.

Lemma updated_quotas_elem tenant_id resource limit rows :
  mkQuota tenant_id resource limit
    ∈ updated_quotas tenant_id resource limit rows.
Proof.
  unfold updated_quotas.
  destruct (update_first _ _ _ rows) as [rows'|] eqn:Hu.
  - by apply update_first_Some in Hu as [_ ?].
  - apply elem_of_app. right. left.
Qed.

(** What [delete_tenant_quota] does in one run. *)
Lemma delete_tenant_quota_run tenant_id w :
  delete_tenant_quota tenant_id w =
  if decide (length (filter (quota_of_tenant tenant_id) (quotas (db w)))
             = 0%nat)
  then (Raise (TenantQuotaNotFound tenant_id), w)
  else (Return tt,
        mkWorld (mkDB (filter (λ q, ¬ quota_of_tenant tenant_id q)
                              (quotas (db w)))
                      (reservations (db w)) (next_reservation_id (db w)))
                (utcnow w) (contention w) (calls w)).
Proof.
  unfold delete_tenant_quota, transaction, mbind, M_bind, get_db, put_db,
    raise, mret, M_ret.
  simpl. destruct (decide _); simpl; [|done]. by rewrite World_eta.
Qed.

Lemma filter_tenant_nil rows tenant_id :
  filter (quota_of_tenant tenant_id) rows = [] ↔
  ∀ q, q ∈ rows → quota_tenant_id q ≠ tenant_id.
Proof.
  split.
  - intros Hnil q Hq Ht.
    assert (q ∈ filter (quota_of_tenant tenant_id) rows) as Hin
      by by apply list_elem_of_filter.
    rewrite Hnil in Hin. by apply elem_of_nil in Hin.
  - intros Hall. induction rows as [|q rows IH]; [done|].
    rewrite filter_cons. destruct (decide _) as [Ht|].
    + exfalso. by apply (Hall q); [left|].
    + apply IH. intros q' Hq'. apply Hall. by right.
Qed.

Lemma filter_tenant_removed rows tenant_id :
  filter (quota_of_tenant tenant_id)
         (filter (λ q, ¬ quota_of_tenant tenant_id q) rows) = [].
Proof.
  apply filter_tenant_nil. intros q Hq.
  by apply list_elem_of_filter in Hq as [Hq _].
Qed.
(** The invariant holds of the empty table and is kept by both writers of
    the table. *)
Lemma one_row_per_key_nil : one_row_per_key [].
Proof. constructor. Qed.

Lemma one_row_per_key_update tenant_id resource limit w :
  one_row_per_key (quotas (db w)) →
  one_row_per_key
    (quotas (db (update_quota_limit tenant_id resource limit w).2)).
Proof.
  intros Hu. rewrite update_quota_limit_run. simpl.
  by apply updated_quotas_unique.
Qed.

Lemma one_row_per_key_delete tenant_id w :
  one_row_per_key (quotas (db w)) →
  one_row_per_key (quotas (db (delete_tenant_quota tenant_id w).2)).
Proof.
  intros Hu. rewrite delete_tenant_quota_run.
  destruct (decide _); [done|]. simpl. unfold one_row_per_key in *.
  eapply sublist_NoDup; [exact Hu|]. apply fmap_sublist, sublist_filter.
Qed.
End QuotaTable.

(** Stores and registries used to run the driver on concrete inputs. *)
Module Samples.
Definition t1 : string := "t1".

(** A resource whose counter reports [committed] units plus what the
    tenant's pending reservations hold for it. *)
Definition pending (resource : string) (now : Z) (d : DB)
    (tenant_id : string) : Z :=
  default 0
    (quota_api.total_reserved
       (filter (λ r, quota_api.selected tenant_id false now r)
               (reservations d))
       resource).

Definition tracked (resource : string) (limit committed : Z)
  : BaseResource.t :=
  BaseResource.mk limit (λ now d tenant_id,
    committed + pending resource now d tenant_id).

Definition empty_db : DB := mkDB [] [] 0.
Definition world_of (d : DB) (now : Z) : World := mkWorld d now [] [].

Definition ports10 : gmap string BaseResource.t :=
  {[ "port" := tracked "port" 10 4 ]}.

Definition override_db : DB :=
  mkDB [mkQuota "t1" "port" 7; mkQuota "t2" "port" 8;
        mkQuota "t1" "router" 2] [] 0.
End Samples.

(** C9: [delete_tenant_quota(tenant_id)] ends in [TenantQuotaNotFound]
    exactly when the tenant has no override row, and then the store is left
    as it was; otherwise it returns, the table keeps exactly the rows of
    the other tenants, and so every override row of the tenant is gone. *)
Theorem delete_tenant_quota_removes_overrides (tenant_id : string) (w : World) :
  let out := delete_tenant_quota tenant_id w in
  (out.1 = Raise (TenantQuotaNotFound tenant_id) ↔
     ∀ q, q ∈ quotas (db w) → quota_tenant_id q ≠ tenant_id)
  ∧ (out.1 = Return tt ↔
     ∃ q, q ∈ quotas (db w) ∧ quota_tenant_id q = tenant_id)
  ∧ (out.1 = Return tt →
     quotas (db out.2)
       = filter (λ q, quota_tenant_id q ≠ tenant_id) (quotas (db w))
     ∧ ∀ q, q ∈ quotas (db out.2) → quota_tenant_id q ≠ tenant_id)
  ∧ (∀ e, out.1 = Raise e → e = TenantQuotaNotFound tenant_id ∧ out.2 = w)
  ∧ reservations (db out.2) = reservations (db w).
Proof.
  intros out. subst out. rewrite delete_tenant_quota_run.
  destruct (decide _) as [Hlen|Hlen]; simpl.
  - apply length_zero_iff_nil in Hlen.
    pose proof (proj1 (filter_tenant_nil _ _) Hlen) as Hnone.
    split_and!; try done.
    + split; [done|]. intros (q & Hq & Ht). by destruct (Hnone q Hq).
    + by intros e [= <-].
  - assert (filter (quota_of_tenant tenant_id) (quotas (db w)) ≠ []) as Hne.
    { intros Hnil. apply Hlen. by rewrite Hnil. }
    split_and!; try done.
    + split; [done|]. intros Hnone. destruct Hne.
      by apply filter_tenant_nil.
    + split; [intros _|done].
      destruct (filter _ _) as [|q rest] eqn:Hf; [done|].
      assert (q ∈ filter (quota_of_tenant tenant_id) (quotas (db w))) as Hq
        by (rewrite Hf; left).
      apply list_elem_of_filter in Hq as [Ht Hq]. by exists q.
    + intros _. split; [done|]. intros q Hq.
      by apply list_elem_of_filter in Hq as [Hq _].
Qed.

(** C8: the round trip of limit administration, on a store that holds at
    most one override row per tenant and resource.  A registered resource
    without an override row for the tenant is reported with its default;
    after [update_quota_limit(tenant, R, L)] the tenant's quotas report [L]
    for [R]; after [delete_tenant_quota(tenant)], whether it returned or
    raised, the tenant's quotas are the defaults of the registry. *)
Theorem limit_administration_round_trip
    (w : World) (resources : gmap string BaseResource.t)
    (tenant_id R : string) (L : Z) :
  one_row_per_key (quotas (db w)) →
  (∀ res, resources !! R = Some res →
     (∀ q, q ∈ quotas (db w) → quota_key q ≠ (tenant_id, R)) →
     ∃ m, get_tenant_quotas resources tenant_id w = (Return m, w)
          ∧ m !! R = Some (BaseResource.default res))
  ∧ (∃ w1 m, update_quota_limit tenant_id R L w = (Return tt, w1)
          ∧ get_tenant_quotas resources tenant_id w1 = (Return m, w1)
          ∧ m !! R = Some L)
  ∧ (∃ r w2, delete_tenant_quota tenant_id w = (r, w2)
          ∧ get_tenant_quotas resources tenant_id w2
            = (Return (BaseResource.default <$> resources), w2)).
Proof.
  intros Huniq. split_and!.
  - intros res Hres Hnone. eexists. split; [reflexivity|]. simpl.
    unfold tenant_quotas_of. rewrite overlay_lookup_other.
    + by rewrite lookup_fmap, Hres.
    + intros q Hq Hr. apply list_elem_of_filter in Hq as [Ht Hq].
      apply (Hnone q Hq). unfold quota_key, quota_of_tenant in *. congruence.
  - rewrite update_quota_limit_run. eexists _, _.
    split; [reflexivity|]. split; [reflexivity|]. simpl.
    unfold tenant_quotas_of. simpl.
    apply (overlay_lookup_unique _ _ (mkQuota tenant_id R L)).
    + by apply tenant_rows_unique, updated_quotas_unique.
    + apply list_elem_of_filter. split; [done|]. apply updated_quotas_elem.
  - rewrite delete_tenant_quota_run. destruct (decide _) as [Hlen|Hlen].
    + eexists _, _. split; [reflexivity|].
      unfold get_tenant_quotas, mbind, M_bind, get_db, mret, M_ret.
      unfold tenant_quotas_of. apply length_zero_iff_nil in Hlen.
      by rewrite Hlen.
    + eexists _, _. split; [reflexivity|].
      unfold get_tenant_quotas, mbind, M_bind, get_db, mret, M_ret.
      unfold tenant_quotas_of. simpl. by rewrite filter_tenant_removed.
Qed.

Lemma limit_administration_round_trip_witness :
  let w := Samples.world_of Samples.override_db 0 in
  ∃ w1 m, update_quota_limit "t1" "port" 3 w = (Return tt, w1)
          ∧ get_tenant_quotas Samples.ports10 "t1" w1 = (Return m, w1)
          ∧ m !! "port" = Some 3.
Proof.
  refine (proj1 (proj2 (limit_administration_round_trip
    (Samples.world_of Samples.override_db 0) Samples.ports10
    "t1" "port" 3 _))).
  apply (bool_decide_unpack _). vm_compute. exact I.
Defined.

(** C10: the mapping returned by [get_tenant_quotas] has a key for every
    override row of the tenant, whether or not the registry knows the
    resource, and for every registered resource; its keys can therefore be
    a strict superset of the registry's. *)
Theorem get_tenant_quotas_keeps_unregistered_overrides :
  (∀ (w : World) (resources : gmap string BaseResource.t) (tenant_id : string),
     ∃ m, get_tenant_quotas resources tenant_id w = (Return m, w)
          ∧ (∀ q, q ∈ quotas (db w) → quota_tenant_id q = tenant_id →
               m !! quota_resource q ≠ None)
          ∧ dom resources ⊆ dom m)
  ∧ (∃ (w : World) (resources : gmap string BaseResource.t)
       (tenant_id : string) m,
       get_tenant_quotas resources tenant_id w = (Return m, w)
       ∧ dom resources ⊂ dom m).
Proof.
  split.
  - intros w resources tenant_id. eexists. split; [reflexivity|]. simpl.
    unfold tenant_quotas_of. split.
    + intros q Hq Ht Hnone. apply not_elem_of_dom in Hnone. apply Hnone.
      apply overlay_dom. right. exists q. split; [|done].
      by apply list_elem_of_filter.
    + intros k Hk. apply overlay_dom. left. by rewrite dom_fmap.
  - exists (Samples.world_of Samples.override_db 0), Samples.ports10, "t1".
    eexists. split; [reflexivity|]. simpl.
    apply (bool_decide_unpack _). vm_compute. exact I.
Qed.

(** ** Sorted reports *)

(** [names] lists, in ascending order and once each, exactly the names
    that satisfy [P]. *)
Definition sorted_listing (names : list string) (P : string → Prop) : Prop :=
  Sorted String.le names ∧ NoDup names ∧ ∀ k, k ∈ names ↔ P k.

Lemma sorted_listing_intro (l : list string) (P : string → Prop) :
  NoDup l → (∀ k, k ∈ l ↔ P k) → sorted_listing (sorted l) P.
Proof.
  intros Hnd HP. unfold sorted_listing, sorted. split_and!.
  - apply Sorted_merge_sort. apply _.
  - by rewrite merge_sort_Permutation.
  - intros k. by rewrite merge_sort_Permutation.
Qed.

Lemma sorted_nil_inv (l : list string) : sorted l = [] → l = [].
Proof.
  intros Hs. apply Permutation_nil_r. rewrite <- Hs. unfold sorted.
  by rewrite merge_sort_Permutation.
Qed.

Lemma filtered_keys_NoDup {V} (P : string * V → Prop)
    `{!∀ x, Decision (P x)} (m : gmap string V) :
  NoDup (filter P (map_to_list m)).*1.
Proof.
  eapply sublist_NoDup; [apply (NoDup_fst_map_to_list m)|].
  apply fmap_sublist, sublist_filter.
Qed.

Lemma filtered_keys_elem {V} (P : string * V → Prop)
    `{!∀ x, Decision (P x)} (m : gmap string V) k :
  k ∈ (filter P (map_to_list m)).*1 ↔ ∃ v, m !! k = Some v ∧ P (k, v).
Proof.
  rewrite list_elem_of_fmap. split.
  - intros ([k' v] & -> & Hin). apply list_elem_of_filter in Hin as [HP Hin].
    apply elem_of_map_to_list in Hin. by exists v.
  - intros (v & Hm & HP). exists (k, v). split; [done|].
    apply list_elem_of_filter. split; [done|]. by apply elem_of_map_to_list.
Qed.

(** ** The limit checker *)

Section LimitCheck.
Implicit Types (quotas values : gmap string Z).

(** The test of the comprehension that gathers [overs]. *)
Definition over_limit quotas (item : string * Z) : Prop :=
  ∃ limit, quotas !! item.1 = Some limit ∧ 0 ≤ limit ∧ limit < item.2.

Global Instance over_limit_dec quotas item : Decision (over_limit quotas item).
Proof.
  unfold over_limit. destruct (quotas !! item.1) as [limit|].
  - destruct (decide (0 ≤ limit ∧ limit < item.2)) as [H|H].
    + left. by exists limit.
    + right. intros (l & [= <-] & ?). by apply H.
  - right. by intros (l & [=] & _).
Defined.

Lemma collect_overs_world quotas items w :
  (collect_overs quotas items w).2 = w.
Proof.
  revert w. induction items as [|[key val] items IH]; intros w; [done|].
  simpl. unfold mbind, M_bind, getitem.
  destruct (quotas !! key) as [limit|]; [|done]. simpl.
  specialize (IH w). destruct (collect_overs quotas items w) as [[overs|e] w'].
  - simpl in *. by subst.
  - simpl in *. by subst.
Qed.

Lemma collect_overs_covered quotas items w :
  (∀ key val, (key, val) ∈ items → quotas !! key ≠ None) →
  collect_overs quotas items w
    = (Return (filter (over_limit quotas) items).*1, w).
Proof.
  revert w. induction items as [|[key val] items IH]; intros w Hcov; [done|].
  simpl. destruct (quotas !! key) as [limit|] eqn:Hkey.
  2:{ destruct (Hcov key val); [left|done]. }
  rewrite (bind_Return _ _ w limit w) by by apply getitem_Some.
  erewrite (bind_Return _ _ w _ w).
  2:{ apply IH. intros k v Hkv. apply (Hcov k v). by right. }
  unfold mret, M_ret. do 2 f_equal. rewrite filter_cons.
  destruct (decide (over_limit quotas (key, val))) as [Ho|Ho].
  - destruct Ho as (l & Hl & ? & ?). simpl in Hl.
    rewrite Hkey in Hl. injection Hl as <-.
    by rewrite bool_decide_eq_true_2.
  - rewrite bool_decide_eq_false_2; [done|].
    intros [? ?]. apply Ho. by exists limit.
Qed.

Lemma limit_check_world tenant_id resources values w :
  (limit_check tenant_id resources values w).2 = w.
Proof.
  unfold limit_check. destruct (filter _ _).*1; [|done].
  unfold _get_quotas, get_tenant_quotas, mbind, M_bind, get_db, mret,
    M_ret.
  pose proof (collect_overs_world
    (tenant_quotas_of (db w) resources tenant_id) (map_to_list values) w)
    as Hw.
  destruct (collect_overs _ _ w) as [[[|k overs]|e] w']; simpl in *;
    by subst.
Qed.
End LimitCheck.

(** C5, as the code has it.  A negative value makes [limit_check] fail with
    [InvalidQuotaValue] and the sorted keys of the negative values, whatever
    the limits are and whether or not the keys are known.  When no value is
    negative and every key of [values] has an effective limit (it is
    registered or the tenant has an override row for it), the check fails
    with [OverQuota] and the sorted keys whose value exceeds a non-negative
    limit if there is such a key, and returns otherwise.  The world is left
    as it was in every case. *)
Theorem limit_check_outcomes (tenant_id : string)
    (resources : gmap string BaseResource.t) (values : gmap string Z)
    (w : World) :
  let quotas := tenant_quotas_of (db w) resources tenant_id in
  let negative k := ∃ v, values !! k = Some v ∧ v < 0 in
  let over k :=
    ∃ v limit, values !! k = Some v ∧ quotas !! k = Some limit
               ∧ 0 ≤ limit ∧ limit < v in
  let out := limit_check tenant_id resources values w in
  out.2 = w
  ∧ ((∃ k, negative k) →
       ∃ unders, out.1 = Raise (InvalidQuotaValue unders)
                 ∧ sorted_listing unders negative)
  ∧ ((∀ k, ¬ negative k) →
     (∀ k, k ∈ dom values → k ∈ dom quotas) →
       ((∃ k, over k) →
          ∃ overs, out.1 = Raise (OverQuota overs)
                   ∧ sorted_listing overs over)
       ∧ ((∀ k, ¬ over k) → out.1 = Return tt)).
Proof.
  intros quotas negative over out. split; [apply limit_check_world|].
  assert (∀ k, k ∈ (filter (λ item, item.2 < 0) (map_to_list values)).*1
               ↔ negative k) as Hneg.
  { intros k. by rewrite filtered_keys_elem. }
  subst out. unfold limit_check.
  destruct (filter _ _).*1 as [|k0 unders] eqn:Hunders.
  - split.
    { intros [k Hk]. apply Hneg in Hk. by apply elem_of_nil in Hk. }
    intros _ Hcov.
    unfold _get_quotas, get_tenant_quotas.
    rewrite (bind_Return _ _ w quotas w) by done.
    erewrite (bind_Return _ _ w _ w).
    2:{ apply collect_overs_covered. intros key val Hin Hnone.
        apply elem_of_map_to_list in Hin.
        apply not_elem_of_dom in Hnone. apply Hnone, Hcov.
        apply elem_of_dom. by exists val. }
    assert (∀ k, k ∈ (filter (over_limit quotas) (map_to_list values)).*1
                 ↔ over k) as Hover.
    { intros k. rewrite filtered_keys_elem. unfold over, over_limit. simpl.
      split.
      - intros (v & Hv & limit & Hl & ? & ?). by exists v, limit.
      - intros (v & limit & Hv & Hl & ? & ?). exists v. split; [done|].
        by exists limit. }
    destruct ((filter (over_limit quotas) (map_to_list values)).*1)
      as [|k1 overs] eqn:Hovers.
    + split; [|done]. intros [k Hk]. apply Hover in Hk.
      by apply elem_of_nil in Hk.
    + split.
      * intros _. eexists. split; [reflexivity|].
        apply sorted_listing_intro; [|done].
        rewrite <- Hovers. apply filtered_keys_NoDup.
      * intros Hnone. destruct (Hnone k1). apply Hover. left.
  - split.
    + intros _. eexists. split; [reflexivity|].
      apply sorted_listing_intro; [|done].
      rewrite <- Hunders. apply filtered_keys_NoDup.
    + intros Hnone. destruct (Hnone k0). apply Hneg. left.
Qed.

Lemma limit_check_outcomes_witness :
  ∃ overs,
    (limit_check "t1" Samples.ports10 {["port" := 11]}
       (Samples.world_of Samples.empty_db 0)).1 = Raise (OverQuota overs)
    ∧ sorted_listing overs (λ k, ∃ v limit,
        ({["port" := 11]} : gmap string Z) !! k = Some v
        ∧ tenant_quotas_of Samples.empty_db Samples.ports10 "t1" !! k
          = Some limit
        ∧ 0 ≤ limit ∧ limit < v).
Proof.
  refine (proj1 (proj2 (proj2 (limit_check_outcomes "t1" Samples.ports10
    {["port" := 11]} (Samples.world_of Samples.empty_db 0))) _ _) _).
  - intros k (v & Hv & Hneg).
    apply lookup_singleton_Some in Hv as [_ <-]. lia.
  - intros k Hk. apply elem_of_dom in Hk as [v Hv].
    apply lookup_singleton_Some in Hv as [<- _]. by vm_compute.
  - exists "port", 11, 10. by vm_compute.
Defined.

(** The third branch of C5 as the specification words it fails on a key
    without an effective limit: no value is negative and no value exceeds
    a limit, yet the check ends in [KeyError] instead of returning. *)
Lemma limit_check_unknown_key :
  let values : gmap string Z := {["x" := 1]} in
  let w := Samples.world_of Samples.empty_db 0 in
  let quotas := tenant_quotas_of (db w) ∅ "t1" in
  (∀ k v, values !! k = Some v → ¬ v < 0)
  ∧ (∀ k v limit, values !! k = Some v → quotas !! k = Some limit →
       ¬ (0 ≤ limit ∧ limit < v))
  ∧ (limit_check "t1" ∅ values w).1 = Raise (KeyError "x")
  ∧ (limit_check "t1" ∅ values w).1 ≠ Return tt
  ∧ ∀ overs, (limit_check "t1" ∅ values w).1 ≠ Raise (OverQuota overs).
Proof.
  split_and!.
  - intros k v Hv. apply lookup_singleton_Some in Hv as [_ <-]. lia.
  - intros k v limit _ Hl. by vm_compute in Hl.
  - by vm_compute.
  - by vm_compute.
  - intros overs. by vm_compute.
Qed.

(** ** The reservation store *)

(** The world with further calls on its record. *)
Definition add_calls (cs : list call) (w : World) : World :=
  mkWorld (db w) (utcnow w) (contention w) (calls w ++ cs).

Lemma add_calls_nil w : add_calls [] w = w.
Proof. unfold add_calls. rewrite app_nil_r. apply World_eta. Qed.

Lemma add_calls_app cs1 cs2 w :
  add_calls cs2 (add_calls cs1 w) = add_calls (cs1 ++ cs2) w.
Proof. unfold add_calls. simpl. by rewrite app_assoc. Qed.

Section Store.
Variable tenant_id : string.

(** The tenant's expired rows, and what they hold for a resource. *)
Definition expired_rows (w : World) : list Reservation :=
  filter (λ r, quota_api.selected tenant_id true (utcnow w) r)
         (reservations (db w)).

Definition expired_delta (w : World) (resource : string) : Z :=
  quota_api.total (quota_api.amounts resource (expired_rows w)).

Lemma total_reserved_default rows resource :
  default 0 (quota_api.total_reserved rows resource)
    = quota_api.total (quota_api.amounts resource rows).
Proof.
  unfold quota_api.total_reserved.
  by destruct (quota_api.amounts resource rows).
Qed.

Lemma get_reservations_for_resources_run (names : gset string) w :
  ∃ expired_deltas,
    quota_api.get_reservations_for_resources tenant_id names true w
      = (Return expired_deltas, w)
    ∧ ∀ resource, resource ∈ names →
        default 0 (expired_deltas !! resource) = expired_delta w resource.
Proof.
  eexists. split; [reflexivity|]. intros resource Hin. simpl.
  rewrite map_lookup_imap, lookup_gset_to_gmap.
  rewrite option_guard_True by done. simpl.
  apply total_reserved_default.
Qed.

(** The store after reclamation of the tenant's expired rows. *)
Definition reclaimed_db (now : Z) (d : DB) : DB :=
  mkDB (quotas d)
       (filter (λ r, ¬ quota_api.selected tenant_id true now r)
               (reservations d))
       (next_reservation_id d).

Lemma remove_expired_reservations_run w :
  quota_api.remove_expired_reservations tenant_id w
    = (Return tt,
       mkWorld (reclaimed_db (utcnow w) (db w)) (utcnow w) (contention w)
               (calls w ++ [RemoveExpiredCall tenant_id])).
Proof. reflexivity. Qed.

Lemma reclaimed_db_idemp now d :
  reclaimed_db now (reclaimed_db now d) = reclaimed_db now d.
Proof.
  unfold reclaimed_db. simpl. f_equal.
  rewrite list_filter_filter. apply list_filter_iff. tauto.
Qed.

Lemma create_reservation_run ttl deltas w :
  quota_api.create_reservation ttl tenant_id deltas w
    = let id := next_reservation_id (db w) in
      let resv := mkReservation id tenant_id (utcnow w + ttl) deltas in
      (Return resv,
       mkWorld (mkDB (quotas (db w)) (reservations (db w) ++ [resv]) (S id))
               (utcnow w) (contention w)
               (calls w ++ [CreateReservationCall id])).
Proof. reflexivity. Qed.
End Store.

(** ** The reservation engine: one run on a quiet store *)

Section Engine.
Variable tenant_id : string.
Variable resources : gmap string BaseResource.t.
Variable deltas : gmap string Z.

(** The quantities the engine works with, as functions of the world at
    the start of the call. *)
Definition current_limits (w : World) : gmap string Z :=
  tenant_quotas_of (db w) resources tenant_id.

Definition unlimited_resources (w : World) : gset string :=
  dom (filter (λ item, item.2 < 0) (current_limits w)).

Definition requested_resources (w : World) : gset string :=
  dom deltas ∖ unlimited_resources w.

Definition effective_limit (w : World) (resource : string) : Z :=
  default 0 (current_limits w !! resource).

Definition counted_usage (w : World) (resource : string) : Z :=
  match resources !! resource with
  | Some res => BaseResource.count res (utcnow w) (db w) tenant_id
  | None => 0
  end.

Definition requested_delta (resource : string) : Z :=
  default 0 (deltas !! resource).

Definition headroom (w : World) (resource : string) : Z :=
  effective_limit w resource
  - (counted_usage w resource - expired_delta tenant_id w resource).

Lemma elem_of_unlimited w resource :
  resource ∈ unlimited_resources w ↔
  ∃ limit, current_limits w !! resource = Some limit ∧ limit < 0.
Proof.
  unfold unlimited_resources. rewrite elem_of_dom. split.
  - intros [limit Hl]. apply map_lookup_filter_Some in Hl as [Hl Hneg].
    by exists limit.
  - intros (limit & Hl & Hneg). exists limit.
    by apply map_lookup_filter_Some.
Qed.

Lemma registered_has_limit w resource :
  resource ∈ dom resources → resource ∈ dom (current_limits w).
Proof.
  intros Hin. unfold current_limits, tenant_quotas_of.
  apply overlay_dom. left. by rewrite dom_fmap.
Qed.

(** *** Counting *)

Lemma count_quiet resource res w :
  contention w = [] → resources !! resource = Some res →
  count resources resource tenant_id w
    = (Return (BaseResource.count res (utcnow w) (db w) tenant_id),
       add_calls [CountCall resource] w).
Proof.
  intros Hq Hres. unfold count.
  rewrite (bind_Return _ _ w res w) by by apply getitem_Some.
  unfold mbind, M_bind, record, lock_for_update, get_db, get_utcnow.
  simpl. unfold add_calls. by destruct (contention w).
Qed.

Lemma count_usages_quiet rs acc w :
  contention w = [] →
  (∀ r, r ∈ rs → resources !! r ≠ None) →
  ∃ usages,
    count_usages resources tenant_id rs acc w
      = (Return usages, add_calls (CountCall <$> rs) w)
    ∧ (∀ r, r ∈ rs → usages !! r = Some (counted_usage w r))
    ∧ (∀ r, r ∉ rs → usages !! r = acc !! r).
Proof.
  revert acc w. induction rs as [|r rs IH]; intros acc w Hq Hcov.
  { exists acc. rewrite add_calls_nil. split_and!; [done| |done].
    intros r Hr. by apply elem_of_nil in Hr. }
  destruct (resources !! r) as [res|] eqn:Hres.
  2:{ destruct (Hcov r); [left|done]. }
  destruct (IH (<[r := BaseResource.count res (utcnow w) (db w) tenant_id]>
                 acc) (add_calls [CountCall r] w))
    as (usages & Hrun & Hin & Hout).
  { done. }
  { intros r' Hr'. apply Hcov. by right. }
  exists usages. split_and!.
  - simpl. rewrite (bind_Return _ _ _ _ _ (count_quiet r res w Hq Hres)).
    rewrite Hrun. by rewrite add_calls_app.
  - intros r' Hr'. destruct (decide (r' ∈ rs)) as [Hrs|Hrs].
    + rewrite (Hin r' Hrs). done.
    + apply elem_of_cons in Hr' as [->|?]; [|done].
      rewrite (Hout r Hrs), lookup_insert_eq.
      unfold counted_usage. by rewrite Hres.
  - intros r' Hr'. apply not_elem_of_cons in Hr' as [Hne Hrs].
    by rewrite (Hout r' Hrs), lookup_insert_ne.
Qed.

(** *** The headroom loop *)

Definition reclaim (w : World) : World :=
  mkWorld (reclaimed_db tenant_id (utcnow w) (db w)) (utcnow w)
          (contention w) (calls w ++ [RemoveExpiredCall tenant_id]).

(** The world after the loop has passed over [rs], reclaiming at each
    resource whose expired amount [ex] is not zero. *)
Definition reclaim_for (ex : string → Z) (rs : list string) (w : World)
  : World :=
  foldl (λ w r, if decide (ex r ≠ 0) then reclaim w else w) w rs.

Lemma check_headroom_run limits usages expired_deltas
    (lim us ex dl : string → Z) rs over w :
  (∀ r, r ∈ rs → limits !! r = Some (lim r)) →
  (∀ r, r ∈ rs → usages !! r = Some (us r)) →
  (∀ r, r ∈ rs → default 0 (expired_deltas !! r) = ex r) →
  (∀ r, r ∈ rs → deltas !! r = Some (dl r)) →
  check_headroom tenant_id limits usages expired_deltas deltas rs over w
    = (Return (over ++ filter (λ r, lim r - (us r - ex r) < dl r) rs),
       reclaim_for ex rs w).
Proof.
  revert over w. induction rs as [|r rs IH]; intros over w Hl Hu He Hd.
  { simpl. by rewrite app_nil_r. }
  simpl.
  rewrite (bind_Return _ _ w (us r) w) by (apply getitem_Some, Hu; left).
  rewrite (bind_Return _ _ w (lim r) w) by (apply getitem_Some, Hl; left).
  rewrite (bind_Return _ _ w (dl r) w) by (apply getitem_Some, Hd; left).
  rewrite (He r) by left.
  assert (∀ over' w',
    check_headroom tenant_id limits usages expired_deltas deltas rs over' w'
      = (Return (over' ++ filter (λ r, lim r - (us r - ex r) < dl r) rs),
         reclaim_for ex rs w')) as IH'.
  { intros over' w'. apply IH; intros r' Hr'.
    - apply Hl. by right.
    - apply Hu. by right.
    - apply He. by right.
    - apply Hd. by right. }
  rewrite filter_cons.
  destruct (decide (ex r ≠ 0)) as [Hex|Hex].
  - rewrite (bind_Return _ _ w tt (reclaim w)) by done.
    rewrite IH'. destruct (decide (lim r - (us r - ex r) < dl r)).
    + by rewrite <- app_assoc.
    + done.
  - rewrite (bind_Return _ _ w tt w) by done.
    rewrite IH'. destruct (decide (lim r - (us r - ex r) < dl r)).
    + by rewrite <- app_assoc.
    + done.
Qed.

Lemma reclaim_for_world ex rs w :
  let n := length (filter (λ r, ex r ≠ 0) rs) in
  reclaim_for ex rs w
    = mkWorld (if decide (n = 0%nat) then db w
               else reclaimed_db tenant_id (utcnow w) (db w))
              (utcnow w) (contention w)
              (calls w ++ replicate n (RemoveExpiredCall tenant_id)).
Proof.
  revert w. induction rs as [|r rs IH]; intros w.
  { simpl. by rewrite app_nil_r, World_eta. }
  unfold reclaim_for in *. simpl. rewrite filter_cons.
  destruct (decide (ex r ≠ 0)) as [Hex|Hex].
  - rewrite IH. simpl. rewrite <- app_assoc. simpl. f_equal.
    destruct (decide (length _ = 0%nat)); [done|].
    apply reclaimed_db_idemp.
  - by rewrite IH.
Qed.
End Engine.

Section Reservation.
Variable MAX_RETRIES : nat.
Variable RESERVATION_TTL : Z.
Variable tenant_id : string.
Variable resources : gmap string BaseResource.t.
Variable deltas : gmap string Z.

(** The resources the loop finds short of headroom, in the order of the
    loop, and the calls one run makes before it decides. *)
Definition short_of_headroom (w : World) : list string :=
  filter (λ r, headroom tenant_id resources w r < requested_delta deltas r)
         (elements (requested_resources tenant_id resources deltas w)).

Definition reclamations (w : World) : nat :=
  length (filter (λ r, expired_delta tenant_id w r ≠ 0)
                 (elements (requested_resources tenant_id resources deltas w))).

Definition calls_before_decision (w : World) : list call :=
  (CountCall <$> elements (requested_resources tenant_id resources deltas w))
  ++ replicate (reclamations w) (RemoveExpiredCall tenant_id).

Definition db_before_decision (w : World) : DB :=
  if decide (reclamations w = 0%nat) then db w
  else reclaimed_db tenant_id (utcnow w) (db w).

Lemma requested_lookups w r :
  dom deltas ⊆ dom resources →
  r ∈ elements (requested_resources tenant_id resources deltas w) →
  resources !! r ≠ None
  ∧ current_limits tenant_id resources w !! r
    = Some (effective_limit tenant_id resources w r)
  ∧ deltas !! r = Some (requested_delta deltas r).
Proof.
  intros Hcov Hr. apply elem_of_elements in Hr.
  unfold requested_resources in Hr. apply elem_of_difference in Hr as [Hd _].
  assert (r ∈ dom resources) as Hres by by apply Hcov.
  split_and!.
  - apply elem_of_dom in Hres as [res Hres]. by rewrite Hres.
  - apply (registered_has_limit tenant_id resources w) in Hres.
    apply elem_of_dom in Hres as [limit Hl].
    unfold effective_limit. by rewrite Hl.
  - apply elem_of_dom in Hd as [delta Hdl].
    unfold requested_delta. by rewrite Hdl.
Qed.

(** One run of the body of [make_reservation] on a store without
    contention, for a registry that covers the request. *)
Lemma make_reservation_once_quiet w :
  contention w = [] → dom deltas ⊆ dom resources →
  make_reservation_once RESERVATION_TTL tenant_id resources deltas w =
  match short_of_headroom w with
  | _ :: _ =>
      (Raise (OverQuota (sorted (short_of_headroom w))),
       add_calls (calls_before_decision w) w)
  | [] =>
      let d := db_before_decision w in
      let id := next_reservation_id d in
      let resv := mkReservation id tenant_id (utcnow w + RESERVATION_TTL)
                                deltas in
      (Return resv,
       mkWorld (mkDB (quotas d) (reservations d ++ [resv]) (S id))
               (utcnow w) (contention w)
               (calls w ++ calls_before_decision w
                        ++ [CreateReservationCall id]))
  end.
Proof.
  intros Hq Hcov.
  pose proof (λ r, requested_lookups w r Hcov) as Hlook.
  unfold make_reservation_once, transaction.
  rewrite (bind_Return _ _ w (current_limits tenant_id resources w) w)
    by done.
  destruct (count_usages_quiet tenant_id resources
    (elements (requested_resources tenant_id resources deltas w)) ∅ w Hq)
    as (usages & Hcount & Husage & _).
  { intros r Hr. by apply Hlook. }
  rewrite (bind_Return _ _ _ _ _ Hcount).
  destruct (get_reservations_for_resources_run tenant_id
    (requested_resources tenant_id resources deltas w)
    (add_calls (CountCall <$>
       elements (requested_resources tenant_id resources deltas w)) w))
    as (expired_deltas & Hexp & Hdelta).
  rewrite (bind_Return _ _ _ _ _ Hexp).
  rewrite (bind_Return _ _ _ _ _
    (check_headroom_run tenant_id deltas
       (current_limits tenant_id resources w) usages expired_deltas
       (effective_limit tenant_id resources w)
       (counted_usage tenant_id resources w)
       (expired_delta tenant_id w) (requested_delta deltas)
       (elements (requested_resources tenant_id resources deltas w)) [] _
       (λ r Hr, proj1 (proj2 (Hlook r Hr))) Husage
       (λ r Hr, Hdelta r (proj1 (elem_of_elements
          (requested_resources tenant_id resources deltas w) r) Hr))
       (λ r Hr, proj2 (proj2 (Hlook r Hr))))).
  rewrite reclaim_for_world. cbv zeta.
  change (filter (λ r, effective_limit tenant_id resources w r
                       - (counted_usage tenant_id resources w r
                          - expired_delta tenant_id w r)
                       < requested_delta deltas r)
                 (elements (requested_resources tenant_id resources deltas w)))
    with (short_of_headroom w).
  fold (reclamations w).
  destruct (short_of_headroom w) as [|r0 overs]; simpl.
  - unfold db_before_decision, calls_before_decision.
    rewrite <- !app_assoc. by destruct (decide (reclamations w = 0%nat)).
  - unfold raise, add_calls, calls_before_decision.
    by rewrite <- !app_assoc.
Qed.
End Reservation.

(** ** The retry wrapper *)

Section Retry.
Context {A : Type}.
Variable max_retries : nat.
Variable inc_retry_interval retry_on_request : bool.
Variable exception_checker : exn → bool.
Variable f : M A.

Lemma retry_loop_Return remaining interval w a w' :
  f w = (Return a, w') →
  retry_loop inc_retry_interval retry_on_request exception_checker
             remaining interval f w = (Return a, w').
Proof. intros Hf. destruct remaining; simpl; by rewrite Hf. Qed.

Lemma retry_loop_unexpected remaining interval w e w' :
  f w = (Raise e, w') →
  is_exception_expected retry_on_request exception_checker e = false →
  retry_loop inc_retry_interval retry_on_request exception_checker
             remaining interval f w = (Raise e, w').
Proof.
  intros Hf He. destruct remaining; simpl; rewrite Hf; [done|].
  by rewrite He.
Qed.

Lemma retry_loop_expected remaining interval w e w' :
  f w = (Raise e, w') →
  is_exception_expected retry_on_request exception_checker e = true →
  retry_loop inc_retry_interval retry_on_request exception_checker
             (S remaining) interval f w
  = retry_loop inc_retry_interval retry_on_request exception_checker
               remaining (following inc_retry_interval interval) f
               (sleep interval w').2.
Proof. intros Hf He. simpl. rewrite Hf. by rewrite He. Qed.

Lemma retry_loop_exhausted interval w e w' :
  f w = (Raise e, w') →
  retry_loop inc_retry_interval retry_on_request exception_checker
             0 interval f w = (Raise e, w').
Proof. intros Hf. simpl. by rewrite Hf. Qed.
End Retry.

(** ** The reservation engine: the decision *)

Section Decision.
Variable MAX_RETRIES : nat.
Variable RESERVATION_TTL : Z.
Variable tenant_id : string.
Variable resources : gmap string BaseResource.t.
Variable deltas : gmap string Z.

(** A resource is over its limit for this request: it is requested, its
    effective limit is not negative, and its headroom is less than the
    requested delta. *)
Definition over_quota (w : World) (resource : string) : Prop :=
  resource ∈ dom deltas
  ∧ (resource ∉ unlimited_resources tenant_id resources w)
  ∧ headroom tenant_id resources w resource
    < requested_delta deltas resource.

Lemma short_of_headroom_elem w r :
  r ∈ short_of_headroom tenant_id resources deltas w ↔ over_quota w r.
Proof.
  unfold short_of_headroom, over_quota, requested_resources.
  rewrite list_elem_of_filter, elem_of_elements, elem_of_difference.
  tauto.
Qed.

Lemma short_of_headroom_NoDup w :
  NoDup (short_of_headroom tenant_id resources deltas w).
Proof. apply NoDup_filter, NoDup_elements. Qed.

Lemma make_reservation_quiet w :
  contention w = [] → dom deltas ⊆ dom resources →
  make_reservation MAX_RETRIES RESERVATION_TTL tenant_id resources deltas w
  = make_reservation_once RESERVATION_TTL tenant_id resources deltas w.
Proof.
  intros Hq Hcov. unfold make_reservation, wrap_db_retry.
  pose proof (make_reservation_once_quiet RESERVATION_TTL tenant_id
                resources deltas w Hq Hcov) as Hrun.
  destruct (short_of_headroom tenant_id resources deltas w).
  - rewrite Hrun. by eapply retry_loop_Return.
  - rewrite Hrun. by eapply retry_loop_unexpected.
Qed.

(** The request is granted when no resource is over its limit, and is
    refused with the sorted names of all of them otherwise. *)
Lemma make_reservation_decision w :
  contention w = [] → dom deltas ⊆ dom resources →
  let out := make_reservation MAX_RETRIES RESERVATION_TTL tenant_id
                              resources deltas w in
  ((∀ r, ¬ over_quota w r) ∧
     ∃ resv, out.1 = Return resv
             ∧ resv_tenant_id resv = tenant_id ∧ resv_deltas resv = deltas
             ∧ resv ∈ reservations (db out.2))
  ∨ ((∃ r, over_quota w r) ∧
     ∃ overs, out.1 = Raise (OverQuota overs)
              ∧ sorted_listing overs (over_quota w)
              ∧ out.2 = add_calls
                  (calls_before_decision tenant_id resources deltas w) w).
Proof.
  intros Hq Hcov out. subst out.
  rewrite (make_reservation_quiet w Hq Hcov).
  rewrite (make_reservation_once_quiet RESERVATION_TTL tenant_id resources
             deltas w Hq Hcov).
  pose proof (short_of_headroom_elem w) as Helem.
  pose proof (short_of_headroom_NoDup w) as Hnd.
  destruct (short_of_headroom tenant_id resources deltas w)
    as [|r0 overs] eqn:Hshort.
  - left. split.
    + intros r Hr. apply Helem in Hr. by apply elem_of_nil in Hr.
    + eexists. split; [reflexivity|]. simpl. split_and!; [done..|].
      apply elem_of_app. right. left.
  - right. split.
    + exists r0. apply Helem. left.
    + eexists. split; [reflexivity|]. split; [|done].
      by apply sorted_listing_intro.
Qed.
End Decision.

Module Scenes.
Import Samples.

(** Limit 10 on ports, 4 committed, one pending reservation of 3. *)
Definition pending_db : DB :=
  mkDB [] [mkReservation 0 "t1" 1000 {["port" := 3]}] 1.
Definition pending_world : World := world_of pending_db 0.

(** Ports, routers and networks with limits 10, 2 and 5, of which 4, 2
    and 0 are committed. *)
Definition three_kinds : gmap string BaseResource.t :=
  <["network" := tracked "network" 5 0]>
    (<["router" := tracked "router" 2 2]> ports10).

Definition greedy_deltas : gmap string Z :=
  <["network" := 1]> (<["router" := 1]> {["port" := 7]}).

(** A tenant whose override makes ports unlimited. *)
Definition unlimited_db : DB := mkDB [mkQuota "t1" "port" (-1)] [] 0.
End Scenes.

(** C1: for a requested resource whose effective limit is not negative,
    [make_reservation] names the resource in its [OverQuota] exactly when
    limit − (counted usage − summed deltas of the tenant's expired
    reservations for it), its headroom, is less than the requested delta.
    With limit 10 and a counted usage of 4 committed units plus a pending
    reservation of 3 the headroom is 3: a request of 3 is granted and a
    request of 4 is refused, naming the resource. *)
Theorem make_reservation_headroom :
  (∀ (MAX_RETRIES : nat) (RESERVATION_TTL : Z) (tenant_id : string)
     (resources : gmap string BaseResource.t) (deltas : gmap string Z)
     (w : World) (r : string) (res : BaseResource.t) (limit delta : Z),
     contention w = [] → dom deltas ⊆ dom resources →
     deltas !! r = Some delta → resources !! r = Some res →
     tenant_quotas_of (db w) resources tenant_id !! r = Some limit →
     0 ≤ limit →
     let out := make_reservation MAX_RETRIES RESERVATION_TTL tenant_id
                                 resources deltas w in
     let usage := BaseResource.count res (utcnow w) (db w) tenant_id in
     let res_headroom := limit - (usage - expired_delta tenant_id w r) in
     headroom tenant_id resources w r = res_headroom
     ∧ ((∃ overs, out.1 = Raise (OverQuota overs) ∧ r ∈ overs)
        ↔ res_headroom < delta))
  ∧ (let w := Scenes.pending_world in
     tenant_quotas_of (db w) Samples.ports10 "t1" !! "port" = Some 10
     ∧ counted_usage "t1" Samples.ports10 w "port" = 4 + 3
     ∧ expired_delta "t1" w "port" = 0
     ∧ headroom "t1" Samples.ports10 w "port" = 3
     ∧ (∃ resv, (make_reservation 10 120000 "t1" Samples.ports10
                   {["port" := 3]} w).1 = Return resv)
     ∧ (make_reservation 10 120000 "t1" Samples.ports10
          {["port" := 4]} w).1 = Raise (OverQuota ["port"])).
Proof.
  split.
  - intros MAX_RETRIES RESERVATION_TTL tenant_id resources deltas w r res
      limit delta Hq Hcov Hdelta Hres Hlimit Hpos out usage res_headroom.
    assert (headroom tenant_id resources w r = res_headroom) as Hhead.
    { unfold headroom, effective_limit, current_limits, counted_usage.
      by rewrite Hlimit, Hres. }
    split; [done|].
    assert (over_quota tenant_id resources deltas w r ↔ res_headroom < delta)
      as Hover.
    { unfold over_quota, requested_delta. rewrite Hhead, Hdelta. simpl.
      split; [by intros (_ & _ & ?)|]. intros Hlt. split_and!; [|  |done].
      - apply elem_of_dom. by exists delta.
      - intros Hun. apply elem_of_unlimited in Hun as (l & Hl & Hneg).
        unfold current_limits in Hl. rewrite Hlimit in Hl.
        injection Hl as <-. lia. }
    rewrite <- Hover.
    destruct (make_reservation_decision MAX_RETRIES RESERVATION_TTL tenant_id
                resources deltas w Hq Hcov)
      as [(Hnone & resv & Hout & _)|(_ & overs & Hout & Hlist & _)];
      fold out in Hout.
    + split; [|by intros ?%Hnone].
      intros (overs & Hovers & _). congruence.
    + destruct Hlist as (_ & _ & Helem). split.
      * intros (overs' & Hovers & Hin). rewrite Hout in Hovers.
        injection Hovers as <-. by apply Helem.
      * intros Hr. exists overs. split; [done|]. by apply Helem.
  - split_and!; try by vm_compute.
    eexists. by vm_compute.
Qed.

Lemma make_reservation_headroom_witness :
  let w := Scenes.pending_world in
  let out := make_reservation 10 120000 "t1" Samples.ports10
                              {["port" := 4]} w in
  headroom "t1" Samples.ports10 w "port" = 10 - (4 + 3 - 0)
  ∧ ((∃ overs, out.1 = Raise (OverQuota overs) ∧ "port" ∈ overs)
     ↔ 10 - (4 + 3 - 0) < 4).
Proof.
  refine (proj1 make_reservation_headroom 10%nat 120000 "t1" Samples.ports10
            {["port" := 4]} Scenes.pending_world "port"
            (Samples.tracked "port" 10 4) 10 4 _ _ _ _ _ _).
  - reflexivity.
  - apply (bool_decide_unpack _). by vm_compute.
  - by vm_compute.
  - by vm_compute.
  - by vm_compute.
  - lia.
Defined.

(** C3: when at least one requested resource is over its limit,
    [make_reservation] fails with [OverQuota] carrying, sorted and once
    each, all the resources that are over their limit; the store holds no
    reservation row it did not hold before, and no creation was asked of
    it. *)
Theorem make_reservation_over_quota (MAX_RETRIES : nat) (RESERVATION_TTL : Z)
    (tenant_id : string) (resources : gmap string BaseResource.t)
    (deltas : gmap string Z) (w : World) :
  contention w = [] → dom deltas ⊆ dom resources →
  (∃ r, over_quota tenant_id resources deltas w r) →
  let out := make_reservation MAX_RETRIES RESERVATION_TTL tenant_id
                              resources deltas w in
  ∃ overs,
    out.1 = Raise (OverQuota overs)
    ∧ sorted_listing overs (over_quota tenant_id resources deltas w)
    ∧ (∀ resv, resv ∈ reservations (db out.2) → resv ∈ reservations (db w))
    ∧ next_reservation_id (db out.2) = next_reservation_id (db w)
    ∧ (∀ id, CreateReservationCall id ∈ calls out.2 →
             CreateReservationCall id ∈ calls w).
Proof.
  intros Hq Hcov [r Hr] out. subst out.
  destruct (make_reservation_decision MAX_RETRIES RESERVATION_TTL tenant_id
              resources deltas w Hq Hcov)
    as [(Hnone & _)|(_ & overs & Hout & Hlist & Hw)].
  { by destruct (Hnone r). }
  exists overs. rewrite Hw. split_and!; [done..|].
  intros id Hin. simpl in Hin. apply elem_of_app in Hin as [?|Hin]; [done|].
  unfold calls_before_decision in Hin.
  apply elem_of_app in Hin as [Hin|Hin].
  - by apply list_elem_of_fmap in Hin as (? & [=] & _).
  - by apply elem_of_replicate in Hin as [[=] _].
Qed.

Lemma make_reservation_over_quota_witness :
  let w := Samples.world_of Samples.empty_db 0 in
  let out := make_reservation 10 120000 "t1" Scenes.three_kinds
                              Scenes.greedy_deltas w in
  ∃ overs,
    out.1 = Raise (OverQuota overs)
    ∧ sorted_listing overs
        (over_quota "t1" Scenes.three_kinds Scenes.greedy_deltas w)
    ∧ (∀ resv, resv ∈ reservations (db out.2) → resv ∈ reservations (db w))
    ∧ next_reservation_id (db out.2) = next_reservation_id (db w)
    ∧ (∀ id, CreateReservationCall id ∈ calls out.2 →
             CreateReservationCall id ∈ calls w).
Proof.
  refine (make_reservation_over_quota 10 120000 "t1" Scenes.three_kinds
            Scenes.greedy_deltas (Samples.world_of Samples.empty_db 0)
            _ _ _).
  - reflexivity.
  - apply (bool_decide_unpack _). by vm_compute.
  - exists "router". unfold over_quota. split_and!.
    + apply (bool_decide_unpack _). by vm_compute.
    + apply (bool_decide_unpack _). by vm_compute.
    + by vm_compute.
Defined.

(** The refusal of the greedy request names both offenders, in order. *)
Example greedy_request_names_all :
  (make_reservation 10 120000 "t1" Scenes.three_kinds Scenes.greedy_deltas
     (Samples.world_of Samples.empty_db 0)).1
  = Raise (OverQuota ["port"; "router"]).
Proof. by vm_compute. Qed.

(** ** Postconditions of runs *)

(** [post m w Q]: the run of [m] from [w] ends in a result and a world
    that satisfy [Q]. *)
Definition post {A} (m : M A) (w : World) (Q : result A → World → Prop)
  : Prop :=
  Q (m w).1 (m w).2.

Lemma post_bind {A B} (m : M A) (f : A → M B) w
    (Q : result B → World → Prop) :
  post m w (λ r w', match r with
                    | Return a => post (f a) w' Q
                    | Raise e => Q (Raise e) w'
                    end) →
  post (m ≫= f) w Q.
Proof. unfold post, mbind, M_bind. by destruct (m w) as [[a|e] w']. Qed.

Lemma post_transaction {A} (body : M A) w (Q : result A → World → Prop) :
  post body w (λ r w', match r with
                       | Return a => Q (Return a) w'
                       | Raise e =>
                           Q (Raise e) (mkWorld (db w) (utcnow w')
                                                (contention w') (calls w'))
                       end) →
  post (transaction body) w Q.
Proof. unfold post, transaction. by destruct (body w) as [[a|e] w']. Qed.

Lemma post_mono {A} (m : M A) w (Q Q' : result A → World → Prop) :
  (∀ r w', Q r w' → Q' r w') → post m w Q → post m w Q'.
Proof. unfold post. auto. Qed.

(** ** What a call of the engine puts on the record *)

(** [w'] extends the record of [w] by calls that are all [good]. *)
Definition emits_only (good : call → Prop) (w w' : World) : Prop :=
  ∃ cs, calls w' = calls w ++ cs ∧ Forall good cs.

Lemma emits_only_refl good w : emits_only good w w.
Proof. exists []. by rewrite app_nil_r. Qed.

Lemma emits_only_trans good w1 w2 w3 :
  emits_only good w1 w2 → emits_only good w2 w3 → emits_only good w1 w3.
Proof.
  intros (cs1 & H1 & Hg1) (cs2 & H2 & Hg2). exists (cs1 ++ cs2).
  split; [by rewrite H2, H1, app_assoc|]. by apply Forall_app.
Qed.

Lemma emits_only_same good w w' :
  calls w' = calls w → emits_only good w w'.
Proof. intros Hc. exists []. by rewrite app_nil_r. Qed.

Lemma emits_only_snoc good w w' c :
  good c → calls w' = calls w ++ [c] → emits_only good w w'.
Proof. intros Hc Hw. exists [c]. split; [done|]. by apply Forall_singleton. Qed.

Definition never_over_quota {A} (r : result A) : Prop :=
  ∀ overs, r ≠ Raise (OverQuota overs).

Section Emissions.
Variable RESERVATION_TTL : Z.
Variable tenant_id : string.
Variable resources : gmap string BaseResource.t.
Variable deltas : gmap string Z.
Variable good : call → Prop.
Hypothesis good_remove : good (RemoveExpiredCall tenant_id).
Hypothesis good_create : ∀ id, good (CreateReservationCall id).

Lemma count_emits r w :
  good (CountCall r) →
  post (count resources r tenant_id) w
       (λ res w', emits_only good w w' ∧ never_over_quota res).
Proof.
  intros Hr. unfold post, count, mbind, M_bind, getitem, record,
    lock_for_update, get_db, get_utcnow, mret, M_ret, raise.
  destruct (resources !! r) as [res|]; simpl.
  2:{ split; [apply emits_only_refl|done]. }
  destruct (contention w) as [|[|] rest]; simpl;
    (split; [by eapply emits_only_snoc|done]).
Qed.

Lemma count_usages_emits rs acc w :
  (∀ r, r ∈ rs → good (CountCall r)) →
  post (count_usages resources tenant_id rs acc) w
       (λ res w', emits_only good w w' ∧ never_over_quota res).
Proof.
  revert acc w. induction rs as [|r rs IH]; intros acc w Hrs.
  { split; [apply emits_only_refl|done]. }
  simpl. apply post_bind.
  eapply post_mono; [|apply count_emits, Hrs; left].
  intros [usage|e] w' [Hw' Hno].
  - eapply post_mono; [|apply IH; intros r' Hr'; apply Hrs; by right].
    intros res w'' [Hw'' Hno'']. split; [|done].
    by eapply emits_only_trans.
  - split; [done|]. intros overs [= ->]. by destruct (Hno overs).
Qed.

Lemma check_headroom_emits limits usages expired_deltas rs over w :
  post (check_headroom tenant_id limits usages expired_deltas deltas rs
                       over) w
       (λ res w', emits_only good w w'
                  ∧ match res with
                    | Return l => ∀ r, r ∈ l → r ∈ over ∨ r ∈ rs
                    | Raise e => ∀ overs, e ≠ OverQuota overs
                    end).
Proof.
  revert over w. induction rs as [|r rs IH]; intros over w.
  { split; [apply emits_only_refl|]. intros r Hr. by left. }
  simpl. apply post_bind. unfold post at 1, getitem.
  destruct (usages !! r) as [usage|]; simpl;
    [|split; [apply emits_only_refl|done]].
  apply post_bind. unfold post at 1, getitem.
  destruct (limits !! r) as [limit|]; simpl;
    [|split; [apply emits_only_refl|done]].
  apply post_bind. unfold post at 1, getitem.
  destruct (deltas !! r) as [delta|]; simpl;
    [|split; [apply emits_only_refl|done]].
  apply post_bind.
  assert (∀ w', emits_only good w w' →
    post (check_headroom tenant_id limits usages expired_deltas deltas rs
            (if decide (limit - (usage - default 0 (expired_deltas !! r))
                        < delta)
             then over ++ [r] else over)) w'
         (λ res w'', emits_only good w w''
                     ∧ match res with
                       | Return l => ∀ r', r' ∈ l → r' ∈ over ∨ r' ∈ r :: rs
                       | Raise e => ∀ overs, e ≠ OverQuota overs
                       end)) as Hrest.
  { intros w' Hw'. eapply post_mono; [|apply IH].
    intros [l|e] w'' [Hw'' Hres]; (split; [by eapply emits_only_trans|]);
      [|done].
    intros r' Hr'. destruct (Hres r' Hr') as [Hin|Hin].
    - destruct (decide _); [|by left].
      apply elem_of_app in Hin as [?|Hin]; [by left|].
      apply list_elem_of_singleton in Hin as ->. right. left.
    - right. by right. }
  destruct (decide (default 0 (expired_deltas !! r) ≠ 0)).
  - unfold post at 1. simpl. apply Hrest. by eapply emits_only_snoc.
  - unfold post at 1. simpl. apply Hrest, emits_only_refl.
Qed.

(** One run of the body: the calls it makes, the resources an
    [OverQuota] can name, and the store after a failure. *)
Lemma make_reservation_once_emits w :
  (∀ r, r ∈ requested_resources tenant_id resources deltas w →
        good (CountCall r)) →
  post (make_reservation_once RESERVATION_TTL tenant_id resources deltas) w
       (λ res w', emits_only good w w'
                  ∧ (∀ overs, res = Raise (OverQuota overs) →
                       ∀ r, r ∈ overs →
                         r ∈ requested_resources tenant_id resources
                                                  deltas w)
                  ∧ (∀ e, res = Raise e → db w' = db w)).
Proof.
  intros Hgood.
  unfold make_reservation_once. apply post_transaction, post_bind.
  unfold post at 1. simpl.
  fold (current_limits tenant_id resources w).
  fold (unlimited_resources tenant_id resources w).
  fold (requested_resources tenant_id resources deltas w).
  apply post_bind.
  eapply post_mono; [|apply count_usages_emits].
  2:{ intros r Hr. by apply Hgood, elem_of_elements. }
  intros [usages|e] w1 [Hw1 Hno1]; simpl.
  2:{ split_and!; [done| |done].
      intros overs [= ->]. by destruct (Hno1 overs). }
  apply post_bind. unfold post at 1. simpl.
  apply post_bind.
  eapply post_mono; [|apply check_headroom_emits].
  intros [over|e] w2 [Hw2 Hres2]; simpl.
  2:{ split_and!; [by eapply emits_only_trans| |done].
      intros overs [= ->]. by destruct (Hres2 overs). }
  assert (emits_only good w w2) as Hww2 by by eapply emits_only_trans.
  destruct over as [|r over].
  - unfold post. simpl. split_and!; [|done..].
    eapply emits_only_trans; [exact Hww2|].
    eapply emits_only_snoc; [apply good_create|done].
  - unfold post. simpl. split_and!; [done| |done].
    intros overs [= <-] r' Hr'. unfold sorted in Hr'.
    rewrite merge_sort_Permutation in Hr'.
    destruct (Hres2 r' Hr') as [Hin|Hin].
    + by apply elem_of_nil in Hin.
    + by apply elem_of_elements in Hin.
Qed.
End Emissions.

(** ** The decorated call *)

(** The intervals slept so far, and the intervals of [n] successive
    retries that start at [interval] and double. *)
Definition sleeps (cs : list call) : list Z :=
  omap (λ c, match c with SleepCall ms => Some ms | _ => None end) cs.

Definition backoff (interval : Z) (n : nat) : list Z :=
  (λ i : nat, interval * 2 ^ Z.of_nat i) <$> seq 0 n.

(** The world in which attempt [n + 1] of [f] starts, provided each of the
    [n] attempts before it ended in a failure that is retried. *)
Fixpoint world_before_attempt {A} (f : M A) (n : nat) (interval : Z)
    (w : World) : option World :=
  match n with
  | O => Some w
  | S n' =>
      match f w with
      | (Raise e, w') =>
          if is_exception_expected true is_deadlock e
          then world_before_attempt f n' (2 * interval) (sleep interval w').2
          else None
      | (Return _, _) => None
      end
  end.

Lemma backoff_S interval n :
  backoff interval (S n) = interval :: backoff (2 * interval) n.
Proof.
  unfold backoff. simpl. f_equal; [lia|].
  rewrite <- fmap_S_seq, <- list_fmap_compose. apply list_fmap_ext.
  intros _ i _. simpl. rewrite Nat2Z.inj_succ, Z.pow_succ_r by lia. lia.
Qed.

Lemma backoff_increasing interval n :
  0 < interval → StronglySorted Z.lt (backoff interval n).
Proof.
  revert interval. induction n as [|n IH]; intros interval Hpos.
  { constructor. }
  rewrite backoff_S. constructor; [apply IH; lia|].
  apply Forall_forall. intros ms Hms. unfold backoff in Hms.
  apply list_elem_of_fmap in Hms as (i & -> & _).
  assert (0 < 2 ^ Z.of_nat i) by (apply Z.pow_pos_nonneg; lia). nia.
Qed.

Lemma sleeps_app cs1 cs2 : sleeps (cs1 ++ cs2) = sleeps cs1 ++ sleeps cs2.
Proof. unfold sleeps. apply omap_app. Qed.

Lemma sleeps_emits_only w w' :
  emits_only (λ c, ∀ ms, c ≠ SleepCall ms) w w' →
  sleeps (calls w') = sleeps (calls w).
Proof.
  intros (cs & -> & Hcs). rewrite sleeps_app.
  assert (sleeps cs = []) as ->; [|by rewrite app_nil_r].
  induction Hcs as [|c cs Hc _ IH]; [done|].
  unfold sleeps in *. destruct c; simpl; try done. by destruct (Hc ms).
Qed.

Section RetryAttempts.
Context {A : Type}.
Variable f : M A.

Lemma retry_loop_attempts remaining interval w :
  ∃ n wn,
    (n ≤ remaining)%nat
    ∧ world_before_attempt f n interval w = Some wn
    ∧ retry_loop true true is_deadlock remaining interval f w = f wn
    ∧ (n = remaining
       ∨ ∀ e, (f wn).1 = Raise e →
              is_exception_expected true is_deadlock e = false).
Proof.
  revert interval w. induction remaining as [|remaining IH];
    intros interval w.
  { exists 0%nat, w. split_and!; [done|done| |by left].
    simpl. by destruct (f w) as [[a|e] w']. }
  destruct (f w) as [[a|e] w'] eqn:Hf.
  - exists 0%nat, w. split_and!; [lia|done| |].
    + rewrite Hf. by eapply retry_loop_Return.
    + right. intros e. by rewrite Hf.
  - destruct (is_exception_expected true is_deadlock e) eqn:He.
    + destruct (IH (2 * interval) (sleep interval w').2)
        as (n & wn & Hn & Hwn & Hrun & Hlast).
      exists (S n), wn. split_and!; [lia| | |].
      * simpl. by rewrite Hf, He.
      * by erewrite retry_loop_expected.
      * destruct Hlast as [->|?]; [by left|by right].
    + exists 0%nat, w. split_and!; [lia|done| |].
      * rewrite Hf. by eapply retry_loop_unexpected.
      * right. intros e'. rewrite Hf. by intros [= <-].
Qed.

(** The failed attempts leave the store and the sleeps of the operation
    alone: the sleeps on the record are those of the wrapper. *)
Hypothesis f_quiet : ∀ w,
  sleeps (calls (f w).2) = sleeps (calls w)
  ∧ ∀ e, (f w).1 = Raise e → db (f w).2 = db w.

Lemma world_before_attempt_sleeps n interval w wn :
  world_before_attempt f n interval w = Some wn →
  sleeps (calls wn) = sleeps (calls w) ++ backoff interval n
  ∧ db wn = db w.
Proof.
  revert interval w. induction n as [|n IH]; intros interval w.
  { intros [= <-]. unfold backoff. simpl. by rewrite app_nil_r. }
  simpl. destruct (f_quiet w) as [Hs Hdb].
  destruct (f w) as [[a|e] w']; [done|].
  destruct (is_exception_expected _ _ e); [|done].
  intros Hwn. apply IH in Hwn as [Hsl Hd]. simpl in *.
  rewrite Hsl, Hd, (Hdb e eq_refl), backoff_S, sleeps_app, Hs.
  by rewrite <- app_assoc.
Qed.
End RetryAttempts.

Section Wrapped.
Variable MAX_RETRIES : nat.
Variable RESERVATION_TTL : Z.
Variable tenant_id : string.
Variable resources : gmap string BaseResource.t.
Variable deltas : gmap string Z.

Lemma requested_same_db w w0 :
  db w = db w0 →
  requested_resources tenant_id resources deltas w
    = requested_resources tenant_id resources deltas w0.
Proof.
  intros Hdb.
  unfold requested_resources, unlimited_resources, current_limits.
  by rewrite Hdb.
Qed.

Lemma make_reservation_once_sleeps w :
  let out := make_reservation_once RESERVATION_TTL tenant_id resources
                                   deltas w in
  sleeps (calls out.2) = sleeps (calls w)
  ∧ ∀ e, out.1 = Raise e → db out.2 = db w.
Proof.
  pose proof (make_reservation_once_emits RESERVATION_TTL tenant_id
    resources deltas (λ c, ∀ ms, c ≠ SleepCall ms)) as Hemits.
  destruct (Hemits (λ ms, ltac:(done)) (λ id ms, ltac:(done)) w
              (λ r _ ms, ltac:(done))) as (Hw & _ & Hdb).
  split; [by apply sleeps_emits_only|done].
Qed.

(** A request for unlimited resources only goes straight to the store. *)
Lemma make_reservation_all_unlimited w :
  dom deltas ⊆ unlimited_resources tenant_id resources w →
  make_reservation MAX_RETRIES RESERVATION_TTL tenant_id resources deltas w
  = quota_api.create_reservation RESERVATION_TTL tenant_id deltas w.
Proof.
  intros Hall.
  assert (elements (requested_resources tenant_id resources deltas w) = [])
    as Hnil.
  { apply elements_empty_iff, elem_of_equiv_empty. intros r Hr.
    unfold requested_resources in Hr.
    apply elem_of_difference in Hr as [Hd Hn]. by apply Hn, Hall. }
  unfold make_reservation, wrap_db_retry.
  assert (make_reservation_once RESERVATION_TTL tenant_id resources deltas w
          = quota_api.create_reservation RESERVATION_TTL tenant_id deltas w)
    as Honce.
  { unfold make_reservation_once, transaction.
    rewrite (bind_Return _ _ w (current_limits tenant_id resources w) w)
      by done.
    fold (unlimited_resources tenant_id resources w).
    fold (requested_resources tenant_id resources deltas w).
    rewrite Hnil. simpl. unfold mbind, M_bind. simpl. done. }
  rewrite create_reservation_run in *. cbv zeta in *.
  by eapply retry_loop_Return.
Qed.

Variable good : call → Prop.
Hypothesis good_remove : good (RemoveExpiredCall tenant_id).
Hypothesis good_create : ∀ id, good (CreateReservationCall id).
Hypothesis good_sleep : ∀ ms, good (SleepCall ms).

Lemma make_reservation_emits w0 remaining interval w :
  (∀ r, r ∈ requested_resources tenant_id resources deltas w0 →
        good (CountCall r)) →
  db w = db w0 →
  post (retry_loop true true is_deadlock remaining interval
          (make_reservation_once RESERVATION_TTL tenant_id resources deltas))
       w
       (λ res w', emits_only good w w'
                  ∧ ∀ overs, res = Raise (OverQuota overs) →
                      ∀ r, r ∈ overs →
                        r ∈ requested_resources tenant_id resources
                                                 deltas w0).
Proof.
  intros Hgood. revert interval w.
  induction remaining as [|remaining IH]; intros interval w Hdb;
    pose proof (make_reservation_once_emits RESERVATION_TTL tenant_id
      resources deltas good good_remove good_create w) as Honce;
    rewrite (requested_same_db w w0 Hdb) in Honce;
    specialize (Honce Hgood); unfold post in Honce; unfold post at 1;
    simpl;
    destruct (make_reservation_once _ _ _ _ w) as [[resv|e] w'];
    simpl in *; destruct Honce as (Hw' & Hover & Hraise); try done.
  destruct (is_exception_expected true is_deadlock e); [|done].
  eapply post_mono; [|apply IH].
  - intros res w'' [Hw'' Hres]. split; [|done].
    eapply emits_only_trans; [exact Hw'|].
    eapply emits_only_trans; [|exact Hw''].
    eapply emits_only_snoc; [apply good_sleep|done].
  - simpl. by rewrite (Hraise e eq_refl).
Qed.
End Wrapped.

(** C4: a requested resource whose effective limit is negative is not
    counted by [make_reservation], whatever the store's contention and
    however often the call is retried, and no [OverQuota] names it,
    whatever delta is requested for it; a request for unlimited resources
    only is granted without a count. *)
Theorem unlimited_never_counted_nor_denied
    (MAX_RETRIES : nat) (RESERVATION_TTL : Z) (tenant_id : string)
    (resources : gmap string BaseResource.t) (deltas : gmap string Z)
    (w : World) (r : string) (limit : Z) :
  tenant_quotas_of (db w) resources tenant_id !! r = Some limit →
  limit < 0 →
  let out := make_reservation MAX_RETRIES RESERVATION_TTL tenant_id
                              resources deltas w in
  (CountCall r ∈ calls out.2 → CountCall r ∈ calls w)
  ∧ (∀ overs, out.1 = Raise (OverQuota overs) → r ∉ overs)
  ∧ ((∀ r', r' ∈ dom deltas →
        ∃ limit', tenant_quotas_of (db w) resources tenant_id !! r'
                  = Some limit' ∧ limit' < 0) →
     ∃ resv w', out = (Return resv, w')
                ∧ resv_deltas resv = deltas
                ∧ calls w' = calls w
                             ++ [CreateReservationCall (resv_id resv)]).
Proof.
  intros Hlimit Hneg out.
  assert (r ∈ unlimited_resources tenant_id resources w) as Hun.
  { apply elem_of_unlimited. by exists limit. }
  pose proof (make_reservation_emits RESERVATION_TTL tenant_id resources
    deltas (λ c, c ≠ CountCall r)) as Hemits.
  destruct (Hemits ltac:(done) (λ id, ltac:(done)) (λ ms, ltac:(done))
              w MAX_RETRIES 100 w) as ((cs & Hcalls & Hcs) & Hover).
  { intros r' Hr' [= ->]. unfold requested_resources in Hr'.
    by apply elem_of_difference in Hr' as [_ ?]. }
  { done. }
  change (retry_loop true true is_deadlock MAX_RETRIES 100
            (make_reservation_once RESERVATION_TTL tenant_id resources
               deltas) w) with out in Hcalls, Hover.
  split_and!.
  - rewrite Hcalls, elem_of_app. intros [?|Hin]; [done|].
    rewrite Forall_forall in Hcs. by destruct (Hcs _ Hin).
  - intros overs Hout Hin. specialize (Hover overs Hout r Hin).
    unfold requested_resources in Hover.
    by apply elem_of_difference in Hover as [_ ?].
  - intros Hall. subst out. rewrite make_reservation_all_unlimited.
    + rewrite create_reservation_run. by eexists _, _.
    + intros r' Hr'. apply elem_of_unlimited. by apply Hall.
Qed.

Lemma unlimited_never_counted_nor_denied_witness :
  let w := mkWorld Scenes.unlimited_db 0 [true] [] in
  let out := make_reservation 10 120000 "t1" Samples.ports10
                              {["port" := 1000000]} w in
  (CountCall "port" ∈ calls out.2 → CountCall "port" ∈ calls w)
  ∧ (∀ overs, out.1 = Raise (OverQuota overs) → "port" ∉ overs)
  ∧ ((∀ r', r' ∈ dom ({["port" := 1000000]} : gmap string Z) →
        ∃ limit', tenant_quotas_of (db w) Samples.ports10 "t1" !! r'
                  = Some limit' ∧ limit' < 0) →
     ∃ resv w', out = (Return resv, w')
                ∧ resv_deltas resv = {["port" := 1000000]}
                ∧ calls w' = calls w
                             ++ [CreateReservationCall (resv_id resv)]).
Proof.
  refine (unlimited_never_counted_nor_denied 10 120000 "t1" Samples.ports10
            {["port" := 1000000]} (mkWorld Scenes.unlimited_db 0 [true] [])
            "port" (-1) _ _).
  - by vm_compute.
  - lia.
Defined.

(** The failures that speak of quotas. *)
Definition quota_semantic (e : exn) : Prop :=
  match e with
  | OverQuota _ | InvalidQuotaValue _ | TenantQuotaNotFound _ => True
  | _ => False
  end.

(** C6: the decorated [make_reservation].  A quota failure of the body is
    the caller's at once and as it is.  In general the call makes at most
    [MAX_RETRIES] retries: the attempts before the last all ended in a
    deadlock (or a retry request), each followed by a sleep, the sleeps
    being 100 ms, 200 ms, 400 ms, ... and so increasing; the outcome of the
    last attempt is the caller's as it is, and it is a deadlock only when
    the retries are used up. *)
Theorem make_reservation_retry_policy
    (MAX_RETRIES : nat) (RESERVATION_TTL : Z) (tenant_id : string)
    (resources : gmap string BaseResource.t) (deltas : gmap string Z)
    (w : World) :
  let once := make_reservation_once RESERVATION_TTL tenant_id resources
                                    deltas in
  let out := make_reservation MAX_RETRIES RESERVATION_TTL tenant_id
                              resources deltas w in
  (∀ e w', once w = (Raise e, w') → quota_semantic e → out = (Raise e, w'))
  ∧ ∃ n wn,
      (n ≤ MAX_RETRIES)%nat
      ∧ world_before_attempt once n 100 w = Some wn
      ∧ out = once wn
      ∧ (n = MAX_RETRIES
         ∨ ∀ e, out.1 = Raise e → e ≠ DBDeadlock ∧ e ≠ RetryRequest)
      ∧ sleeps (calls out.2) = sleeps (calls w) ++ backoff 100 n
      ∧ StronglySorted Z.lt (backoff 100 n).
Proof.
  intros once out. split.
  - intros e w' Hrun He. subst out. unfold make_reservation, wrap_db_retry.
    eapply retry_loop_unexpected; [exact Hrun|]. by destruct e.
  - destruct (retry_loop_attempts once MAX_RETRIES 100 w)
      as (n & wn & Hn & Hwn & Hrun & Hlast).
    exists n, wn.
    assert (out = once wn) as Hout by exact Hrun.
    split_and!; [done..| | |].
    + destruct Hlast as [?|Hlast]; [by left|right].
      intros e He. rewrite Hout in He. specialize (Hlast e He).
      by destruct e.
    + rewrite Hout.
      destruct (world_before_attempt_sleeps once
                  (make_reservation_once_sleeps RESERVATION_TTL tenant_id
                     resources deltas) n 100 w wn Hwn) as [<- _].
      apply (make_reservation_once_sleeps RESERVATION_TTL tenant_id
               resources deltas wn).
    + by apply backoff_increasing.
Qed.

Lemma make_reservation_retry_policy_witness :
  let w := Scenes.pending_world in
  make_reservation 10 120000 "t1" Samples.ports10 {["port" := 4]} w
  = (Raise (OverQuota ["port"]), add_calls [CountCall "port"] w).
Proof.
  refine (proj1 (make_reservation_retry_policy 10 120000 "t1"
                   Samples.ports10 {["port" := 4]} Scenes.pending_world)
            (OverQuota ["port"])
            (add_calls [CountCall "port"] Scenes.pending_world) _ _).
  - by vm_compute.
  - exact I.
Defined.

(** Two deadlocks, then success: two sleeps of 100 and 200 ms; a third
    deadlock with two retries allowed surfaces. *)
Example two_deadlocks_then_granted :
  let out := make_reservation 2 120000 "t1" Samples.ports10 {["port" := 3]}
               (mkWorld Scenes.pending_db 0 [true; true] []) in
  (∃ resv, out.1 = Return resv)
  ∧ calls out.2 = [CountCall "port"; SleepCall 100; CountCall "port";
                   SleepCall 200; CountCall "port"; CreateReservationCall 1]
  ∧ utcnow out.2 = 300.
Proof. split_and!; [eexists|..]; by vm_compute. Qed.

Example three_deadlocks_surface :
  let out := make_reservation 2 120000 "t1" Samples.ports10 {["port" := 3]}
               (mkWorld Scenes.pending_db 0 [true; true; true] []) in
  out.1 = Raise DBDeadlock
  ∧ sleeps (calls out.2) = [100; 200]
  ∧ db out.2 = Scenes.pending_db.
Proof. split_and!; by vm_compute. Qed.

(** ** What a call leaves in the store *)

Section Frame.
Variable MAX_RETRIES : nat.
Variable RESERVATION_TTL : Z.
Variable tenant_id : string.
Variable resources : gmap string BaseResource.t.
Variable deltas : gmap string Z.

(** The loop reclaims when the expired amounts of some requested
    resource do not sum to zero. *)
Lemma reclamations_pos w :
  reclamations tenant_id resources deltas w ≠ 0%nat ↔
  ∃ r, r ∈ requested_resources tenant_id resources deltas w
       ∧ expired_delta tenant_id w r ≠ 0.
Proof.
  unfold reclamations. split.
  - destruct (filter _ _) as [|r rest] eqn:Hf; [done|]. intros _.
    assert (r ∈ filter (λ r, expired_delta tenant_id w r ≠ 0)
              (elements (requested_resources tenant_id resources deltas w)))
      as Hr by (rewrite Hf; left).
    apply list_elem_of_filter in Hr as [Hne Hr].
    exists r. by rewrite <- elem_of_elements.
  - intros (r & Hr & Hne) Hlen. apply length_zero_iff_nil in Hlen.
    eapply filter_nil_not_elem_of; [exact Hlen|exact Hne|].
    by apply elem_of_elements.
Qed.

Lemma reclaim_call_recorded w :
  RemoveExpiredCall tenant_id
    ∈ calls_before_decision tenant_id resources deltas w
  ↔ reclamations tenant_id resources deltas w ≠ 0%nat.
Proof.
  unfold calls_before_decision.
  rewrite elem_of_app, list_elem_of_fmap, elem_of_replicate. split.
  - by intros [(r & [=] & _)|[_ ?]].
  - intros Hne. by right.
Qed.

(** The limits are left alone; a refusal leaves the whole store as it
    was; a grant leaves the store after reclamation (if the loop
    reclaimed) with the one new row appended; reclamation is asked of the
    store exactly when the loop reclaimed. *)
Lemma make_reservation_frame w :
  contention w = [] → dom deltas ⊆ dom resources →
  let out := make_reservation MAX_RETRIES RESERVATION_TTL tenant_id
                              resources deltas w in
  quotas (db out.2) = quotas (db w)
  ∧ (∃ cs, calls out.2 = calls w ++ cs
           ∧ (RemoveExpiredCall tenant_id ∈ cs ↔
              reclamations tenant_id resources deltas w ≠ 0%nat))
  ∧ match out.1 with
    | Return resv =>
        reservations (db out.2)
        = reservations (db_before_decision tenant_id resources deltas w)
          ++ [resv]
    | Raise _ => db out.2 = db w
    end.
Proof.
  intros Hq Hcov out. subst out.
  rewrite (make_reservation_quiet MAX_RETRIES RESERVATION_TTL tenant_id
             resources deltas w Hq Hcov).
  rewrite (make_reservation_once_quiet RESERVATION_TTL tenant_id resources
             deltas w Hq Hcov).
  pose proof (reclaim_call_recorded w) as Hcall.
  destruct (short_of_headroom tenant_id resources deltas w); simpl.
  - split_and!; [|eexists; split; [reflexivity|]|done].
    + unfold db_before_decision. by destruct (decide _).
    + rewrite elem_of_app, Hcall. split; [|by left].
      intros [?|Hin]; [done|]. by apply list_elem_of_singleton in Hin.
  - split_and!; [done|eexists; split; [reflexivity|done]|done].
Qed.

(** Rows that are not expired rows of the tenant survive reclamation. *)
Lemma reclaimed_db_keeps now d resv :
  resv ∈ reservations d →
  quota_api.selected tenant_id true now resv = false →
  resv ∈ reservations (reclaimed_db tenant_id now d).
Proof.
  intros Hin Hsel. unfold reclaimed_db. simpl.
  apply list_elem_of_filter. split; [|done]. rewrite Hsel. simpl. tauto.
Qed.
End Frame.

Module Expiry.
Import Samples.

(** A request for zero ports is granted on the empty store; 200 seconds
    later its reservation, which held for 120 seconds, has expired. *)
Definition zero_reservation : Reservation :=
  mkReservation 0 "t1" 120000 {["port" := 0]}.

Definition after_zero_request : World :=
  world_of
    (db (make_reservation 10 120000 "t1" ports10 {["port" := 0]}
           (world_of empty_db 0)).2)
    200000.

(** The pending reservation of 3 ports has expired. *)
Definition after_expiry : World := world_of Scenes.pending_db 2000.

(** Limit 5 on ports, nothing committed. *)
Definition ports5 : gmap string BaseResource.t :=
  {[ "port" := tracked "port" 5 0 ]}.
End Expiry.

(** C7 at a failing input: the tenant has an expired reservation for the
    requested, limited resource "port", but its delta is 0, so the expired
    amounts sum to 0: the request is granted, reclamation is not asked of
    the store, and the expired row stays in it. *)
Theorem zero_sum_expired_not_reclaimed :
  let w := Expiry.after_zero_request in
  let out := make_reservation 10 120000 "t1" Samples.ports10
                              {["port" := 1]} w in
  reservations (db w) = [Expiry.zero_reservation]
  ∧ expired_rows "t1" w = [Expiry.zero_reservation]
  ∧ "port" ∈ requested_resources "t1" Samples.ports10 {["port" := 1]} w
  ∧ expired_delta "t1" w "port" = 0
  ∧ (∃ resv, out.1 = Return resv)
  ∧ calls out.2 = [CountCall "port"; CreateReservationCall 1]
  ∧ reservations (db out.2)
    = [Expiry.zero_reservation;
       mkReservation 1 "t1" 320000 {["port" := 1]}].
Proof.
  split_and!.
  - by vm_compute.
  - by vm_compute.
  - apply (bool_decide_unpack _). by vm_compute.
  - by vm_compute.
  - eexists. by vm_compute.
  - by vm_compute.
  - by vm_compute.
Qed.

(** With an expired amount that is not zero the same request reclaims: the
    expired row is gone and the new one is the only row left. *)
Example expired_reservation_reclaimed :
  let w := Expiry.after_expiry in
  let out := make_reservation 10 120000 "t1" Samples.ports10
                              {["port" := 1]} w in
  expired_delta "t1" w "port" = 3
  ∧ calls out.2 = [CountCall "port"; RemoveExpiredCall "t1";
                   CreateReservationCall 1]
  ∧ reservations (db out.2)
    = [mkReservation 1 "t1" 122000 {["port" := 1]}].
Proof. split_and!; by vm_compute. Qed.

(** Two requests of 3 against a limit of 5, one after the other: the first
    is granted and the second, counted against the pending first one, is
    refused. *)
Example second_of_two_requests_refused :
  let first := make_reservation 10 120000 "t1" Expiry.ports5 {["port" := 3]}
                 (Samples.world_of Samples.empty_db 0) in
  let second := make_reservation 10 120000 "t1" Expiry.ports5 {["port" := 3]}
                  first.2 in
  (∃ resv, first.1 = Return resv)
  ∧ second.1 = Raise (OverQuota ["port"])
  ∧ length (reservations (db second.2)) = 1%nat.
Proof. split_and!; [eexists|..]; by vm_compute. Qed.

(** * Further properties of the driver *)

(** ** The quota-limit table *)

Section QuotaTableMore.
Implicit Types (rows : list Quota) (m : gmap string Z).

Lemma overlay_snoc m rows q :
  foldl overlay m (rows ++ [q]) = overlay (foldl overlay m rows) q.
Proof. by rewrite foldl_app. Qed.

(** The overlay keeps, for each resource, the limit of the last row that
    names it. *)
Lemma overlay_lookup_last m rows k :
  foldl overlay m rows !! k
  = match last (filter (λ q, quota_resource q = k) rows) with
    | Some q => Some (quota_limit q)
    | None => m !! k
    end.
Proof.
  induction rows as [|q rows IH] using rev_ind; [done|].
  rewrite overlay_snoc, filter_app, filter_cons, filter_nil. unfold overlay.
  destruct (decide (quota_resource q = k)) as [<-|Hne].
  - by rewrite lookup_insert_eq, last_snoc.
  - by rewrite lookup_insert_ne, app_nil_r.
Qed.

Lemma filter_key_tenant rows tenant_id k :
  filter (λ q, quota_resource q = k) (filter (quota_of_tenant tenant_id) rows)
  = filter (λ q, quota_key q = (tenant_id, k)) rows.
Proof.
  rewrite list_filter_filter. apply list_filter_iff. intros q.
  unfold quota_key, quota_of_tenant. split.
  - by intros [-> ->].
  - by intros [= -> ->].
Qed.

Lemma update_first_filter tenant_id resource limit rows rows' key :
  key ≠ (tenant_id, resource) →
  update_first tenant_id resource limit rows = Some rows' →
  filter (λ q, quota_key q = key) rows'
  = filter (λ q, quota_key q = key) rows.
Proof.
  intros Hkey. revert rows'.
  induction rows as [|q rows IH]; intros rows'; [done|]. simpl.
  destruct (quota_matches _ _ q) eqn:Hm.
  - intros [= <-]. apply quota_matches_spec in Hm.
    rewrite !filter_cons.
    destruct (decide (quota_key q = key)) as [Heq|Hne]; [congruence|].
    destruct (decide _) as [Heq|_]; [|done].
    unfold quota_key in *. simpl in Heq. congruence.
  - destruct (update_first _ _ _ rows) as [rows''|]; [|done].
    intros [= <-]. rewrite !filter_cons, (IH rows'' eq_refl). done.
Qed.

Lemma updated_quotas_filter tenant_id resource limit rows key :
  key ≠ (tenant_id, resource) →
  filter (λ q, quota_key q = key)
         (updated_quotas tenant_id resource limit rows)
  = filter (λ q, quota_key q = key) rows.
Proof.
  intros Hkey. unfold updated_quotas.
  destruct (update_first _ _ _ rows) as [rows'|] eqn:Hu.
  - by eapply update_first_filter.
  - rewrite filter_app, filter_cons, filter_nil.
    destruct (decide _) as [Heq|_]; [|by rewrite app_nil_r].
    unfold quota_key in Heq. simpl in Heq. congruence.
Qed.

Lemma update_first_again tenant_id resource l1 l2 rows rows' :
  update_first tenant_id resource l1 rows = Some rows' →
  update_first tenant_id resource l2 rows'
  = update_first tenant_id resource l2 rows.
Proof.
  revert rows'. induction rows as [|q rows IH]; intros rows'; [done|].
  simpl. destruct (quota_matches _ _ q) eqn:Hm.
  - intros [= <-]. simpl.
    assert (quota_matches tenant_id resource
              (mkQuota (quota_tenant_id q) (quota_resource q) l1) = true)
      as -> by (apply quota_matches_spec; by apply quota_matches_spec in Hm).
    done.
  - destruct (update_first _ _ l1 rows) as [rows''|]; [|done].
    intros [= <-]. simpl. rewrite Hm. by rewrite (IH rows'' eq_refl).
Qed.

Lemma update_first_snoc tenant_id resource l1 l2 rows :
  update_first tenant_id resource l1 rows = None →
  update_first tenant_id resource l2
               (rows ++ [mkQuota tenant_id resource l1])
  = Some (rows ++ [mkQuota tenant_id resource l2]).
Proof.
  induction rows as [|q rows IH]; simpl.
  - intros _.
    assert (quota_matches tenant_id resource
              (mkQuota tenant_id resource l1) = true)
      as -> by by apply quota_matches_spec.
    done.
  - destruct (quota_matches _ _ q); [done|].
    destruct (update_first _ _ l1 rows); [done|].
    intros _. by rewrite IH.
Qed.

Lemma update_first_limit_irrelevant tenant_id resource l1 l2 rows :
  update_first tenant_id resource l1 rows = None →
  update_first tenant_id resource l2 rows = None.
Proof.
  induction rows as [|q rows IH]; simpl; [done|].
  destruct (quota_matches _ _ q); [done|].
  destruct (update_first _ _ l1 rows); [done|]. intros _. by rewrite IH.
Qed.

Lemma updated_quotas_again tenant_id resource l1 l2 rows :
  updated_quotas tenant_id resource l2
                 (updated_quotas tenant_id resource l1 rows)
  = updated_quotas tenant_id resource l2 rows.
Proof.
  unfold updated_quotas.
  destruct (update_first _ _ l1 rows) as [rows'|] eqn:Hu.
  - rewrite (update_first_again _ _ _ _ _ _ Hu).
    destruct (update_first _ _ l2 rows) eqn:Hu2; [done|].
    apply (update_first_limit_irrelevant _ _ _ l1) in Hu2. congruence.
  - rewrite (update_first_snoc _ _ _ l2 _ Hu).
    by rewrite (update_first_limit_irrelevant _ _ _ l2 _ Hu).
Qed.

Lemma updated_quotas_keys tenant_id resource limit rows :
  quota_key <$> updated_quotas tenant_id resource limit rows
  = if decide ((tenant_id, resource) ∈ quota_key <$> rows)
    then quota_key <$> rows
    else (quota_key <$> rows) ++ [(tenant_id, resource)].
Proof.
  unfold updated_quotas.
  destruct (update_first _ _ _ rows) as [rows'|] eqn:Hu.
  - pose proof Hu as Hu'. apply update_first_Some in Hu as [Hk Hin].
    rewrite Hk. destruct (decide _) as [|Hnot]; [done|]. destruct Hnot.
    rewrite <- Hk. apply list_elem_of_fmap.
    by exists (mkQuota tenant_id resource limit).
  - apply update_first_None in Hu. rewrite decide_False by done.
    by rewrite fmap_app.
Qed.
End QuotaTableMore.

(** The limit [get_tenant_quotas] reports for a resource, if any. *)
Definition reported_limit (resources : gmap string BaseResource.t)
    (tenant_id : string) (w : World) (resource : string) : option Z :=
  match (get_tenant_quotas resources tenant_id w).1 with
  | Return tenant_quota => tenant_quota !! resource
  | Raise _ => None
  end.

(** X1: [get_tenant_quotas] returns, leaves the world as it is, and reports
    for each resource the limit of the last override row the tenant has
    for it in the order of the query; without such a row it reports the
    default of the registry, and nothing for an unregistered resource. *)
Theorem get_tenant_quotas_last_row_wins
    (resources : gmap string BaseResource.t) (tenant_id : string)
    (w : World) (resource : string) :
  ∃ tenant_quota,
    get_tenant_quotas resources tenant_id w = (Return tenant_quota, w)
    ∧ tenant_quota !! resource
      = match last (filter (λ q, quota_key q = (tenant_id, resource))
                           (quotas (db w))) with
        | Some q => Some (quota_limit q)
        | None => BaseResource.default <$> resources !! resource
        end.
Proof.
  eexists. split; [reflexivity|]. simpl. unfold tenant_quotas_of.
  rewrite overlay_lookup_last, filter_key_tenant.
  destruct (last _); [done|]. apply lookup_fmap.
Qed.

Lemma reported_limit_last resources tenant_id w resource :
  reported_limit resources tenant_id w resource
  = match last (filter (λ q, quota_key q = (tenant_id, resource))
                       (quotas (db w))) with
    | Some q => Some (quota_limit q)
    | None => BaseResource.default <$> resources !! resource
    end.
Proof.
  unfold reported_limit. simpl. unfold tenant_quotas_of.
  rewrite overlay_lookup_last, filter_key_tenant.
  destruct (last _); [done|]. apply lookup_fmap.
Qed.

(** X2: [update_quota_limit(tenant, R, L)] returns and changes what is
    reported for no other pair of tenant and resource; the reservations
    are left alone. *)
Theorem update_quota_limit_changes_one_limit
    (resources : gmap string BaseResource.t)
    (tenant_id R : string) (L : Z) (w : World)
    (tenant_id' R' : string) :
  (tenant_id', R') ≠ (tenant_id, R) →
  let out := update_quota_limit tenant_id R L w in
  out.1 = Return tt
  ∧ reported_limit resources tenant_id' out.2 R'
    = reported_limit resources tenant_id' w R'
  ∧ reservations (db out.2) = reservations (db w)
  ∧ next_reservation_id (db out.2) = next_reservation_id (db w).
Proof.
  intros Hne out. subst out. rewrite update_quota_limit_run.
  split_and!; [done| |done..].
  rewrite !reported_limit_last. simpl.
  by rewrite updated_quotas_filter.
Qed.

Lemma update_quota_limit_changes_one_limit_witness :
  let out := update_quota_limit "t1" "port" 3
               (Samples.world_of Samples.override_db 0) in
  out.1 = Return tt
  ∧ reported_limit Samples.ports10 "t2" out.2 "port"
    = reported_limit Samples.ports10 "t2"
        (Samples.world_of Samples.override_db 0) "port"
  ∧ reservations (db out.2) = reservations Samples.override_db
  ∧ next_reservation_id (db out.2)
    = next_reservation_id Samples.override_db.
Proof.
  refine (update_quota_limit_changes_one_limit Samples.ports10 "t1" "port" 3
            (Samples.world_of Samples.override_db 0) "t2" "port" _).
  by intros [=].
Defined.

(** X3: of two successive [update_quota_limit] calls for the same tenant
    and resource the second decides: the world is the one the second call
    alone would have left, whether or not a row existed before. *)
Theorem update_quota_limit_last_write_wins
    (tenant_id R : string) (L1 L2 : Z) (w : World) :
  update_quota_limit tenant_id R L2 (update_quota_limit tenant_id R L1 w).2
  = update_quota_limit tenant_id R L2 w.
Proof.
  rewrite !update_quota_limit_run. simpl.
  by rewrite updated_quotas_again.
Qed.

(** X4: [update_quota_limit] is an upsert on the pairs of tenant and
    resource: when the table has a row for the pair, the rows keep their
    pairs and their order; otherwise one row for the pair is added at the
    end.  It never raises. *)
Theorem update_quota_limit_upsert (tenant_id R : string) (L : Z) (w : World) :
  let out := update_quota_limit tenant_id R L w in
  out.1 = Return tt
  ∧ mkQuota tenant_id R L ∈ quotas (db out.2)
  ∧ quota_key <$> quotas (db out.2)
    = if decide ((tenant_id, R) ∈ quota_key <$> quotas (db w))
      then quota_key <$> quotas (db w)
      else (quota_key <$> quotas (db w)) ++ [(tenant_id, R)].
Proof.
  intros out. subst out. rewrite update_quota_limit_run. simpl.
  split_and!; [done|apply updated_quotas_elem|apply updated_quotas_keys].
Qed.

(** X5: a second [delete_tenant_quota] for the same tenant always fails
    with [TenantQuotaNotFound], and a [delete_tenant_quota] that follows an
    [update_quota_limit] for the tenant always returns. *)
Theorem delete_tenant_quota_after (tenant_id R : string) (L : Z) (w : World) :
  (delete_tenant_quota tenant_id (delete_tenant_quota tenant_id w).2).1
    = Raise (TenantQuotaNotFound tenant_id)
  ∧ (delete_tenant_quota tenant_id
       (update_quota_limit tenant_id R L w).2).1 = Return tt.
Proof.
  split.
  - rewrite (delete_tenant_quota_run tenant_id w).
    destruct (decide _) as [Hlen|Hlen]; simpl.
    + rewrite delete_tenant_quota_run. by rewrite decide_True.
    + rewrite delete_tenant_quota_run. simpl.
      by rewrite filter_tenant_removed.
  - rewrite update_quota_limit_run, delete_tenant_quota_run. simpl.
    destruct (decide _) as [Hlen|Hlen]; [|done].
    apply length_zero_iff_nil in Hlen.
    pose proof (proj1 (filter_tenant_nil _ _) Hlen
                  (mkQuota tenant_id R L)
                  (updated_quotas_elem tenant_id R L (quotas (db w)))).
    done.
Qed.

(** X6: [delete_tenant_quota(tenant)] changes the quotas of no other
    tenant. *)
Theorem delete_tenant_quota_other_tenants
    (resources : gmap string BaseResource.t)
    (tenant_id tenant_id' : string) (w : World) :
  tenant_id' ≠ tenant_id →
  (get_tenant_quotas resources tenant_id'
     (delete_tenant_quota tenant_id w).2).1
  = (get_tenant_quotas resources tenant_id' w).1.
Proof.
  intros Hne. rewrite delete_tenant_quota_run.
  destruct (decide _); [done|]. simpl. unfold tenant_quotas_of. simpl.
  do 2 f_equal. rewrite list_filter_filter. apply list_filter_iff.
  intros q. unfold quota_of_tenant. split; [by intros [? _]|].
  intros Hq. split; [done|]. congruence.
Qed.

Lemma delete_tenant_quota_other_tenants_witness :
  (get_tenant_quotas Samples.ports10 "t2"
     (delete_tenant_quota "t1" (Samples.world_of Samples.override_db 0)).2).1
  = (get_tenant_quotas Samples.ports10 "t2"
       (Samples.world_of Samples.override_db 0)).1.
Proof.
  refine (delete_tenant_quota_other_tenants Samples.ports10 "t1" "t2"
            (Samples.world_of Samples.override_db 0) _).
  by intros [=].
Defined.

(** X7: both writers of the quota table keep it free of duplicates: a
    table with at most one row per tenant and resource is left so by
    [update_quota_limit] and by [delete_tenant_quota]. *)
Theorem quota_table_stays_unique (tenant_id R : string) (L : Z) (w : World) :
  one_row_per_key (quotas (db w)) →
  one_row_per_key (quotas (db (update_quota_limit tenant_id R L w).2))
  ∧ one_row_per_key (quotas (db (delete_tenant_quota tenant_id w).2)).
Proof.
  intros Hu. split.
  - by apply one_row_per_key_update.
  - by apply one_row_per_key_delete.
Qed.

Lemma quota_table_stays_unique_witness :
  let w := Samples.world_of Samples.override_db 0 in
  one_row_per_key (quotas (db (update_quota_limit "t1" "router" 9 w).2))
  ∧ one_row_per_key (quotas (db (delete_tenant_quota "t1" w).2)).
Proof.
  refine (quota_table_stays_unique "t1" "router" 9
            (Samples.world_of Samples.override_db 0) _).
  apply (bool_decide_unpack _). by vm_compute.
Defined.

(** ** All tenants' quotas *)

Section AllQuotas.
Variable resources : gmap string BaseResource.t.

Definition tenant_default : gmap string quota_value :=
  (λ resource, LimitValue (BaseResource.default resource)) <$> resources.

Definition overlay_value (d : gmap string quota_value) (q : Quota)
  : gmap string quota_value :=
  <[quota_resource q := LimitValue (quota_limit q)]> d.

(** The dictionary of one tenant: a copy of the defaults, the tenant's
    identifier, and the tenant's rows written over them in order. *)
Definition tenant_entry (rows : list Quota) (tenant_id : string)
  : gmap string quota_value :=
  foldl overlay_value
        (<["tenant_id" := TenantIdValue tenant_id]> tenant_default)
        (filter (quota_of_tenant tenant_id) rows).

(** The tenants in the order in which the rows first name them. *)
Definition seen (acc : list string) (tenant_id : string) : list string :=
  if decide (tenant_id ∈ acc) then acc else acc ++ [tenant_id].

Definition first_seen (rows : list Quota) : list string :=
  foldl seen [] (quota_tenant_id <$> rows).

Lemma first_seen_snoc rows q :
  first_seen (rows ++ [q]) = seen (first_seen rows) (quota_tenant_id q).
Proof. unfold first_seen. by rewrite fmap_app, foldl_app. Qed.

Lemma first_seen_spec rows :
  NoDup (first_seen rows)
  ∧ ∀ t, t ∈ first_seen rows ↔ ∃ q, q ∈ rows ∧ quota_tenant_id q = t.
Proof.
  induction rows as [|q rows [IHnd IHin]] using rev_ind.
  { split; [constructor|]. intros t. split.
    - intros Ht. by apply elem_of_nil in Ht.
    - intros (q & Hq & _). by apply elem_of_nil in Hq. }
  rewrite first_seen_snoc. unfold seen.
  destruct (decide (quota_tenant_id q ∈ first_seen rows)) as [Hin|Hnin].
  - split; [done|]. intros t. rewrite IHin. split.
    + intros (q' & Hq' & Ht). exists q'. split; [|done].
      apply elem_of_app. by left.
    + intros (q' & Hq' & Ht). apply elem_of_app in Hq' as [Hq'|Hq'].
      * by exists q'.
      * apply list_elem_of_singleton in Hq' as ->. subst t.
        by apply IHin.
  - split.
    + apply NoDup_app. split_and!; [done| |apply NoDup_singleton].
      intros t Ht Ht'. apply list_elem_of_singleton in Ht' as ->. done.
    + intros t. rewrite elem_of_app, IHin, list_elem_of_singleton. split.
      * intros [(q' & Hq' & Ht)| ->].
        -- exists q'. split; [|done]. apply elem_of_app. by left.
        -- exists q. split; [|done]. apply elem_of_app. right. left.
      * intros (q' & Hq' & Ht). apply elem_of_app in Hq' as [Hq'|Hq'].
        -- left. by exists q'.
        -- apply list_elem_of_singleton in Hq' as ->. by right.
Qed.

Lemma tenant_entry_snoc rows q t :
  tenant_entry (rows ++ [q]) t
  = if decide (quota_tenant_id q = t)
    then overlay_value (tenant_entry rows t) q
    else tenant_entry rows t.
Proof.
  unfold tenant_entry. rewrite filter_app, filter_cons, filter_nil.
  unfold quota_of_tenant at 2.
  destruct (decide (quota_tenant_id q = t)).
  - by rewrite foldl_app.
  - by rewrite app_nil_r.
Qed.

Lemma dict_get_fmap {V} (g : string → V) ts t :
  dict_get t ((λ t', (t', g t')) <$> ts)
  = if decide (t ∈ ts) then Some (g t) else None.
Proof.
  induction ts as [|t0 ts IH].
  { destruct (decide (t ∈ [])) as [Hin|]; [|done].
    by apply elem_of_nil in Hin. }
  rewrite fmap_cons. cbn [dict_get].
  destruct (decide (t0 = t)) as [->|Hne].
  - destruct (decide (t ∈ t :: ts)) as [|Hnin]; [done|].
    destruct Hnin. left.
  - rewrite IH. destruct (decide (t ∈ ts)) as [Hin|Hnin].
    + destruct (decide (t ∈ t0 :: ts)) as [|Hnin]; [done|].
      destruct Hnin. by right.
    + destruct (decide (t ∈ t0 :: ts)) as [Hin|]; [|done].
      apply elem_of_cons in Hin as [->|Hin]; done.
Qed.

Lemma dict_alter_fmap {V} (h : V → V) (g : string → V) ts t :
  NoDup ts →
  dict_alter h t ((λ t', (t', g t')) <$> ts)
  = (λ t', (t', if decide (t' = t) then h (g t') else g t')) <$> ts.
Proof.
  induction ts as [|t0 ts IH]; intros Hnd; [done|].
  apply NoDup_cons in Hnd as [Hnin Hnd]. rewrite !fmap_cons.
  cbn [dict_alter].
  destruct (decide (t0 = t)) as [->|Hne].
  - f_equal. apply list_fmap_ext. intros i t' Ht'.
    destruct (decide (t' = t)) as [->|]; [|done].
    destruct Hnin. by eapply list_elem_of_lookup_2.
  - by rewrite IH.
Qed.

(** The dictionary of dictionaries after the loop over [rows]. *)
Lemma record_quota_fold rows :
  foldl (record_quota tenant_default) [] rows
  = (λ t, (t, tenant_entry rows t)) <$> first_seen rows.
Proof.
  induction rows as [|q rows IH] using rev_ind; [done|].
  rewrite foldl_app. simpl. rewrite IH. unfold record_quota.
  rewrite dict_get_fmap, first_seen_snoc. unfold seen.
  destruct (first_seen_spec rows) as [Hnd Hin].
  assert (∀ ts : list string,
          (λ t', (t', if decide (t' = quota_tenant_id q)
           then <[quota_resource q := LimitValue (quota_limit q)]>
                  (tenant_entry rows t')
           else tenant_entry rows t')) <$> ts
          = (λ t, (t, tenant_entry (rows ++ [q]) t)) <$> ts) as Hext.
  { intros ts. apply list_fmap_ext. intros _ t _.
    rewrite tenant_entry_snoc.
    destruct (decide (t = quota_tenant_id q)) as [->|Hne].
    - by rewrite decide_True.
    - rewrite decide_False; [done|]. congruence. }
  destruct (decide (quota_tenant_id q ∈ first_seen rows)) as [Hq|Hq].
  - rewrite dict_alter_fmap by done. apply Hext.
  - assert (tenant_entry rows (quota_tenant_id q)
            = <["tenant_id" := TenantIdValue (quota_tenant_id q)]>
                tenant_default) as Hfresh.
    { unfold tenant_entry.
      assert (filter (quota_of_tenant (quota_tenant_id q)) rows = []) as ->;
        [|done].
      apply filter_tenant_nil. intros q' Hq' Ht. apply Hq, Hin.
      by exists q'. }
    rewrite <- Hfresh.
    change (((λ t, (t, tenant_entry rows t)) <$> first_seen rows)
            ++ [(quota_tenant_id q, tenant_entry rows (quota_tenant_id q))])
      with (((λ t, (t, tenant_entry rows t)) <$> first_seen rows)
            ++ ((λ t, (t, tenant_entry rows t)) <$> [quota_tenant_id q])).
    rewrite <- fmap_app, dict_alter_fmap.
    + apply Hext.
    + apply NoDup_app. split_and!; [done| |apply NoDup_singleton].
      intros t Ht Ht'. apply list_elem_of_singleton in Ht' as ->. done.
Qed.

Lemma get_all_quotas_run w :
  get_all_quotas resources w
  = (Return (tenant_entry (quotas (db w)) <$> first_seen (quotas (db w))), w).
Proof.
  unfold get_all_quotas, mbind, M_bind, get_db, mret, M_ret.
  fold tenant_default. rewrite record_quota_fold.
  by rewrite <- list_fmap_compose.
Qed.

Lemma overlay_value_lookup_last d rows k :
  foldl overlay_value d rows !! k
  = match last (filter (λ q, quota_resource q = k) rows) with
    | Some q => Some (LimitValue (quota_limit q))
    | None => d !! k
    end.
Proof.
  induction rows as [|q rows IH] using rev_ind; [done|].
  rewrite foldl_app, filter_app, filter_cons, filter_nil. simpl.
  unfold overlay_value at 1.
  destruct (decide (quota_resource q = k)) as [<-|Hne].
  - by rewrite lookup_insert_eq, last_snoc.
  - by rewrite lookup_insert_ne, app_nil_r.
Qed.

Lemma tenant_entry_lookup rows t k :
  tenant_entry rows t !! k
  = match last (filter (λ q, quota_key q = (t, k)) rows) with
    | Some q => Some (LimitValue (quota_limit q))
    | None =>
        if decide (k = "tenant_id") then Some (TenantIdValue t)
        else (λ resource, LimitValue (BaseResource.default resource))
               <$> resources !! k
    end.
Proof.
  unfold tenant_entry. rewrite overlay_value_lookup_last, filter_key_tenant.
  destruct (last _); [done|].
  destruct (decide (k = "tenant_id")) as [->|Hne].
  - by rewrite lookup_insert_eq.
  - rewrite lookup_insert_ne by done. unfold tenant_default.
    by rewrite lookup_fmap.
Qed.
End AllQuotas.

(** X8: [get_all_quotas] leaves the world as it is and returns one
    dictionary for each tenant that has an override row, each tenant once,
    and none for any other tenant; on an empty table it returns the empty
    list. *)
Theorem get_all_quotas_one_entry_per_tenant
    (resources : gmap string BaseResource.t) (w : World) :
  (∃ tenants,
     get_all_quotas resources w
       = (Return (tenant_entry resources (quotas (db w)) <$> tenants), w)
     ∧ NoDup tenants
     ∧ ∀ t, t ∈ tenants ↔ ∃ q, q ∈ quotas (db w) ∧ quota_tenant_id q = t)
  ∧ (quotas (db w) = [] → get_all_quotas resources w = (Return [], w)).
Proof.
  rewrite get_all_quotas_run. split.
  - exists (first_seen (quotas (db w))). split; [done|].
    apply first_seen_spec.
  - by intros ->.
Qed.

(** X9: the dictionary [get_all_quotas] returns for a tenant with an
    override row agrees with [get_tenant_quotas] for that tenant on every
    key other than ["tenant_id"]. *)
Theorem get_all_quotas_agrees_with_get_tenant_quotas
    (resources : gmap string BaseResource.t) (w : World) (q : Quota)
    (k : string) :
  q ∈ quotas (db w) → k ≠ "tenant_id" →
  let tenant_id := quota_tenant_id q in
  ∃ entries entry,
    get_all_quotas resources w = (Return entries, w)
    ∧ entry ∈ entries
    ∧ entry = tenant_entry resources (quotas (db w)) tenant_id
    ∧ entry !! k = LimitValue <$> reported_limit resources tenant_id w k.
Proof.
  intros Hq Hk tenant_id. rewrite get_all_quotas_run. eexists _, _.
  split; [reflexivity|]. split_and!; [|reflexivity|].
  - apply list_elem_of_fmap. exists tenant_id. split; [done|].
    apply first_seen_spec. by exists q.
  - rewrite tenant_entry_lookup, reported_limit_last.
    destruct (last _); [done|]. rewrite decide_False by done.
    by destruct (resources !! k).
Qed.

Lemma get_all_quotas_agrees_with_get_tenant_quotas_witness :
  let w := Samples.world_of Samples.override_db 0 in
  ∃ entries entry,
    get_all_quotas Samples.ports10 w = (Return entries, w)
    ∧ entry ∈ entries
    ∧ entry = tenant_entry Samples.ports10 (quotas (db w)) "t1"
    ∧ entry !! "router"
      = LimitValue <$> reported_limit Samples.ports10 "t1" w "router".
Proof.
  refine (get_all_quotas_agrees_with_get_tenant_quotas Samples.ports10
            (Samples.world_of Samples.override_db 0)
            (mkQuota "t1" "port" 7) "router" _ _).
  - left.
  - by intros [=].
Defined.

(** X10: under ["tenant_id"] the dictionary of a tenant holds the tenant's
    identifier, unless the tenant has an override row for a resource that
    is itself named "tenant_id": then the limit of the last such row has
    taken the identifier's place. *)
Theorem get_all_quotas_tenant_id_key
    (resources : gmap string BaseResource.t) (w : World) (q : Quota) :
  q ∈ quotas (db w) →
  let tenant_id := quota_tenant_id q in
  ∃ entries entry,
    get_all_quotas resources w = (Return entries, w)
    ∧ entry ∈ entries
    ∧ entry = tenant_entry resources (quotas (db w)) tenant_id
    ∧ entry !! "tenant_id"
      = match last (filter (λ q', quota_key q' = (tenant_id, "tenant_id"))
                           (quotas (db w))) with
        | Some q' => Some (LimitValue (quota_limit q'))
        | None => Some (TenantIdValue tenant_id)
        end.
Proof.
  intros Hq tenant_id. rewrite get_all_quotas_run. eexists _, _.
  split; [reflexivity|]. split_and!; [|reflexivity|].
  - apply list_elem_of_fmap. exists tenant_id. split; [done|].
    apply first_seen_spec. by exists q.
  - rewrite tenant_entry_lookup. by destruct (last _).
Qed.

Lemma get_all_quotas_tenant_id_key_witness :
  let w := Samples.world_of
             (mkDB [mkQuota "t1" "port" 7; mkQuota "t1" "tenant_id" 5] [] 0)
             0 in
  ∃ entries entry,
    get_all_quotas Samples.ports10 w = (Return entries, w)
    ∧ entry ∈ entries
    ∧ entry = tenant_entry Samples.ports10 (quotas (db w)) "t1"
    ∧ entry !! "tenant_id" = Some (LimitValue 5).
Proof.
  refine (get_all_quotas_tenant_id_key Samples.ports10
            (Samples.world_of
               (mkDB [mkQuota "t1" "port" 7; mkQuota "t1" "tenant_id" 5]
                     [] 0) 0)
            (mkQuota "t1" "port" 7) _).
  left.
Defined.

(** ** The limit checker, further *)

Section LimitCheckMore.
Implicit Types (quotas values : gmap string Z).

(** The comprehension either meets a key without a limit and raises
    [KeyError] for it, or every key has a limit and it returns the keys
    that are over theirs. *)
Lemma collect_overs_cases quotas items w :
  (∃ k, collect_overs quotas items w = (Raise (KeyError k), w)
        ∧ k ∈ items.*1 ∧ quotas !! k = None)
  ∨ ((∀ key val, (key, val) ∈ items → quotas !! key ≠ None)
     ∧ collect_overs quotas items w
       = (Return (filter (over_limit quotas) items).*1, w)).
Proof.
  induction items as [|[key val] items IH].
  { right. split; [|done]. intros key val Hin. by apply elem_of_nil in Hin. }
  destruct (quotas !! key) as [limit|] eqn:Hkey.
  - destruct IH as [(k & Hrun & Hk & Hnone)|[Hcov Hrun]].
    + left. exists k. split_and!; [|by right|done]. simpl.
      rewrite (bind_Return _ _ w limit w) by by apply getitem_Some.
      by rewrite (bind_Raise _ _ w _ w Hrun).
    + right. assert (∀ key' val', (key', val') ∈ (key, val) :: items →
                       quotas !! key' ≠ None) as Hcov'.
      { intros key' val' Hin. apply elem_of_cons in Hin as [[= -> ->]|Hin].
        - by rewrite Hkey.
        - by eapply Hcov. }
      split; [done|]. by apply collect_overs_covered.
  - left. exists key. split_and!; [|left|done]. simpl.
    by rewrite (bind_Raise _ _ w _ w (getitem_None _ _ _ Hkey)).
Qed.

Lemma limit_check_unders_nil values :
  (filter (λ item : string * Z, item.2 < 0) (map_to_list values)).*1 = []
  ↔ ∀ k v, values !! k = Some v → 0 ≤ v.
Proof.
  split.
  - intros Hnil k v Hv. destruct (decide (v < 0)) as [Hneg|]; [|lia].
    assert (k ∈ (filter (λ item : string * Z, item.2 < 0)
                        (map_to_list values)).*1) as Hin.
    { apply filtered_keys_elem. by exists v. }
    rewrite Hnil in Hin. by apply elem_of_nil in Hin.
  - intros Hpos.
    destruct ((filter _ _).*1) as [|k rest] eqn:Hf; [done|].
    assert (k ∈ (filter (λ item : string * Z, item.2 < 0)
                        (map_to_list values)).*1) as Hin
      by (rewrite Hf; left).
    apply filtered_keys_elem in Hin as (v & Hv & Hneg). simpl in Hneg.
    specialize (Hpos k v Hv). lia.
Qed.

Lemma limit_check_overs_nil quotas values :
  (filter (over_limit quotas) (map_to_list values)).*1 = []
  ↔ ∀ k v limit, values !! k = Some v → quotas !! k = Some limit →
      limit < 0 ∨ v ≤ limit.
Proof.
  split.
  - intros Hnil k v limit Hv Hl.
    destruct (decide (0 ≤ limit ∧ limit < v)) as [Hover|]; [|lia].
    assert (k ∈ (filter (over_limit quotas) (map_to_list values)).*1) as Hin.
    { apply filtered_keys_elem. exists v. split; [done|]. by exists limit. }
    rewrite Hnil in Hin. by apply elem_of_nil in Hin.
  - intros Hok.
    destruct ((filter _ _).*1) as [|k rest] eqn:Hf; [done|].
    assert (k ∈ (filter (over_limit quotas) (map_to_list values)).*1) as Hin
      by (rewrite Hf; left).
    apply filtered_keys_elem in Hin as (v & Hv & limit & Hl & ? & ?).
    simpl in *. specialize (Hok k v limit Hv Hl). lia.
Qed.
End LimitCheckMore.

(** X11: [limit_check] returns exactly when every proposed value is at
    least zero and its key has an effective limit that is negative
    (unlimited) or not less than the value; a value equal to its limit
    passes. *)
Theorem limit_check_passes_iff (tenant_id : string)
    (resources : gmap string BaseResource.t) (values : gmap string Z)
    (w : World) :
  (limit_check tenant_id resources values w).1 = Return tt
  ↔ ∀ k v, values !! k = Some v →
      0 ≤ v
      ∧ ∃ limit, reported_limit resources tenant_id w k = Some limit
                 ∧ (limit < 0 ∨ v ≤ limit).
Proof.
  unfold limit_check.
  destruct ((filter (λ item : string * Z, item.2 < 0)
                    (map_to_list values)).*1) as [|k0 unders] eqn:Hunders.
  - pose proof (proj1 (limit_check_unders_nil values) Hunders) as Hpos.
    unfold _get_quotas, get_tenant_quotas.
    rewrite (bind_Return _ _ w
               (tenant_quotas_of (db w) resources tenant_id) w) by done.
    destruct (collect_overs_cases
                (tenant_quotas_of (db w) resources tenant_id)
                (map_to_list values) w)
      as [(k & Hrun & Hk & Hnone)|[Hcov Hrun]].
    + rewrite (bind_Raise _ _ w _ w Hrun). simpl. split; [done|].
      intros Hall. apply list_elem_of_fmap in Hk as ([k' v] & -> & Hin).
      apply elem_of_map_to_list in Hin.
      destruct (Hall k' v Hin) as (_ & limit & Hl & _).
      unfold reported_limit in Hl. simpl in *. congruence.
    + rewrite (bind_Return _ _ w _ w Hrun).
      destruct ((filter (over_limit _) (map_to_list values)).*1)
        as [|k1 overs] eqn:Hovers.
      * split; [intros _|done]. intros k v Hv. split; [by eapply Hpos|].
        destruct (tenant_quotas_of (db w) resources tenant_id !! k)
          as [limit|] eqn:Hl.
        -- exists limit. split; [done|].
           by eapply (proj1 (limit_check_overs_nil _ values) Hovers).
        -- destruct (Hcov k v); [by apply elem_of_map_to_list|done].
      * split; [done|]. intros Hall.
        assert ((filter (over_limit
                  (tenant_quotas_of (db w) resources tenant_id))
                  (map_to_list values)).*1 = []) as Hnil.
        { apply limit_check_overs_nil. intros k v limit Hv Hl.
          destruct (Hall k v Hv) as (_ & limit' & Hl' & Hok).
          unfold reported_limit in Hl'. simpl in Hl'. congruence. }
        congruence.
  - split; [done|]. intros Hall.
    assert ((filter (λ item : string * Z, item.2 < 0)
                    (map_to_list values)).*1 = []) as Hnil.
    { apply limit_check_unders_nil. intros k v Hv. by apply (Hall k v). }
    congruence.
Qed.

(** X12: when no proposed value is negative and some key of [values] has
    no effective limit (it is not registered and the tenant has no override
    row for it), [limit_check] ends in [KeyError] for such a key, whether
    or not other values are over their limits, and leaves the world as it
    is. *)
Theorem limit_check_missing_key (tenant_id : string)
    (resources : gmap string BaseResource.t) (values : gmap string Z)
    (w : World) :
  (∀ k v, values !! k = Some v → 0 ≤ v) →
  (∃ k, k ∈ dom values ∧ reported_limit resources tenant_id w k = None) →
  ∃ k, limit_check tenant_id resources values w = (Raise (KeyError k), w)
       ∧ k ∈ dom values
       ∧ reported_limit resources tenant_id w k = None.
Proof.
  intros Hpos (k0 & Hk0 & Hnone0). unfold limit_check.
  rewrite (proj2 (limit_check_unders_nil values) Hpos).
  unfold _get_quotas, get_tenant_quotas.
  rewrite (bind_Return _ _ w
             (tenant_quotas_of (db w) resources tenant_id) w) by done.
  destruct (collect_overs_cases
              (tenant_quotas_of (db w) resources tenant_id)
              (map_to_list values) w)
    as [(k & Hrun & Hk & Hnone)|[Hcov _]].
  - exists k. rewrite (bind_Raise _ _ w _ w Hrun). split_and!; [done| |done].
    apply list_elem_of_fmap in Hk as ([k' v] & -> & Hin).
    apply elem_of_map_to_list in Hin. apply elem_of_dom. by exists v.
  - apply elem_of_dom in Hk0 as [v Hv].
    destruct (Hcov k0 v); [by apply elem_of_map_to_list|done].
Qed.

Lemma limit_check_missing_key_witness :
  let values : gmap string Z := <["x" := 1]> {["port" := 11]} in
  let w := Samples.world_of Samples.empty_db 0 in
  ∃ k, limit_check "t1" Samples.ports10 values w = (Raise (KeyError k), w)
       ∧ k ∈ dom values
       ∧ reported_limit Samples.ports10 "t1" w k = None.
Proof.
  refine (limit_check_missing_key "t1" Samples.ports10
            (<["x" := 1]> {["port" := 11]})
            (Samples.world_of Samples.empty_db 0) _ _).
  - intros k v Hv. apply lookup_insert_Some in Hv as [[_ <-]|[_ Hv]]; [lia|].
    apply lookup_singleton_Some in Hv as [_ <-]. lia.
  - exists "x". split; [|by vm_compute].
    apply (bool_decide_unpack _). by vm_compute.
Defined.

(** ** The reservation engine, further *)

(** *** What any call leaves in the store *)

Section StoreRelation.
Variable RESERVATION_TTL : Z.
Variable tenant_id : string.
Variable resources : gmap string BaseResource.t.
Variable deltas : gmap string Z.

(** A relation between stores that reclamation of the tenant's expired
    rows and the addition of a row of the tenant both respect. *)
Variable related : DB → DB → Prop.
Hypothesis related_refl : ∀ d, related d d.
Hypothesis related_trans :
  ∀ d1 d2 d3, related d1 d2 → related d2 d3 → related d1 d3.
Hypothesis related_reclaim :
  ∀ now d, related d (reclaimed_db tenant_id now d).
Hypothesis related_create :
  ∀ d id expiration amounts,
    related d (mkDB (quotas d)
                    (reservations d
                     ++ [mkReservation id tenant_id expiration amounts])
                    (S (next_reservation_id d))).

Lemma count_db r w : db (count resources r tenant_id w).2 = db w.
Proof.
  unfold count, mbind, M_bind, getitem, record, lock_for_update, get_db,
    get_utcnow, mret, M_ret, raise.
  destruct (resources !! r) as [res|]; simpl; [|done].
  by destruct (contention w) as [|[|] rest].
Qed.

Lemma count_usages_db rs acc w :
  db (count_usages resources tenant_id rs acc w).2 = db w.
Proof.
  revert acc w. induction rs as [|r rs IH]; intros acc w; [done|].
  simpl. unfold mbind, M_bind. pose proof (count_db r w) as Hdb.
  destruct (count resources r tenant_id w) as [[usage|e] w']; simpl in *.
  - by rewrite IH.
  - done.
Qed.

Lemma check_headroom_related limits usages expired_deltas rs over w :
  related (db w)
    (db (check_headroom tenant_id limits usages expired_deltas deltas rs
                        over w).2).
Proof.
  revert over w. induction rs as [|r rs IH]; intros over w.
  { apply related_refl. }
  simpl. unfold mbind at 1, M_bind at 1, getitem at 1.
  destruct (usages !! r) as [usage|]; simpl; [|apply related_refl].
  unfold mbind at 1, M_bind at 1, getitem at 1.
  destruct (limits !! r) as [limit|]; simpl; [|apply related_refl].
  unfold mbind at 1, M_bind at 1, getitem at 1.
  destruct (deltas !! r) as [delta|]; simpl; [|apply related_refl].
  unfold mbind at 1, M_bind at 1.
  destruct (decide (default 0 (expired_deltas !! r) ≠ 0)); simpl.
  - eapply related_trans; [|apply IH]. simpl. apply related_reclaim.
  - apply IH.
Qed.

Lemma make_reservation_once_related w :
  related (db w)
    (db (make_reservation_once RESERVATION_TTL tenant_id resources deltas
                               w).2).
Proof.
  change (post (make_reservation_once RESERVATION_TTL tenant_id resources
                                      deltas) w
               (λ _ w', related (db w) (db w'))).
  unfold make_reservation_once. apply post_transaction, post_bind.
  unfold post at 1. simpl. apply post_bind.
  eapply post_mono;
    [|exact (count_usages_db _ _ w : post _ w (λ _ w', db w' = db w))].
  intros [usages|e] w1 Hdb1; simpl; [|apply related_refl].
  apply post_bind. unfold post at 1. simpl. apply post_bind.
  eapply post_mono;
    [|exact (check_headroom_related _ _ _ _ _ w1
             : post _ w1 (λ _ w', related (db w1) (db w')))].
  intros [over|e] w2 Hrel; simpl; [|apply related_refl].
  rewrite Hdb1 in Hrel.
  destruct over as [|r over]; unfold post; simpl; [|apply related_refl].
  eapply related_trans; [exact Hrel|]. apply related_create.
Qed.
End StoreRelation.

Section AnyContention.
Variable MAX_RETRIES : nat.
Variable RESERVATION_TTL : Z.
Variable tenant_id : string.
Variable resources : gmap string BaseResource.t.
Variable deltas : gmap string Z.

(** The outcome of the decorated call is the outcome of its last attempt,
    and that attempt starts from the store the call started from. *)
Lemma make_reservation_last_attempt w :
  ∃ wn,
    make_reservation MAX_RETRIES RESERVATION_TTL tenant_id resources deltas w
    = make_reservation_once RESERVATION_TTL tenant_id resources deltas wn
    ∧ db wn = db w.
Proof.
  destruct (retry_loop_attempts
              (make_reservation_once RESERVATION_TTL tenant_id resources
                                     deltas) MAX_RETRIES 100 w)
    as (n & wn & _ & Hwn & Hrun & _).
  exists wn. split; [exact Hrun|].
  by destruct (world_before_attempt_sleeps _
                 (make_reservation_once_sleeps RESERVATION_TTL tenant_id
                    resources deltas) n 100 w wn Hwn).
Qed.

Definition other_tenants (rows : list Reservation) : list Reservation :=
  filter (λ r, resv_tenant_id r ≠ tenant_id) rows.

Definition same_for_others (d d' : DB) : Prop :=
  quotas d' = quotas d
  ∧ other_tenants (reservations d') = other_tenants (reservations d).

Lemma same_for_others_reclaim now d :
  same_for_others d (reclaimed_db tenant_id now d).
Proof.
  split; [done|]. unfold other_tenants, reclaimed_db. simpl.
  rewrite list_filter_filter. apply list_filter_iff. intros r.
  split; [by intros [? _]|]. intros Hne. split; [done|].
  unfold quota_api.selected. rewrite bool_decide_eq_false_2 by done.
  simpl. tauto.
Qed.

Lemma same_for_others_create d id expiration amounts :
  same_for_others d
    (mkDB (quotas d)
          (reservations d ++ [mkReservation id tenant_id expiration amounts])
          (S (next_reservation_id d))).
Proof.
  split; [done|]. unfold other_tenants. simpl.
  rewrite filter_app, filter_cons, filter_nil. simpl.
  rewrite decide_False by (intros Hne; by apply Hne).
  by rewrite app_nil_r.
Qed.

Lemma make_reservation_once_same_for_others w :
  same_for_others (db w)
    (db (make_reservation_once RESERVATION_TTL tenant_id resources deltas
                               w).2).
Proof.
  apply make_reservation_once_related.
  - by split.
  - intros d1 d2 d3 [Hq1 Hr1] [Hq2 Hr2]. split; congruence.
  - apply same_for_others_reclaim.
  - apply same_for_others_create.
Qed.
End AnyContention.

(** X13: [make_reservation] is all or nothing on the store: whatever the
    contention and however many attempts it takes, a call that ends in an
    exception leaves every table as it was. *)
Theorem make_reservation_failure_leaves_store
    (MAX_RETRIES : nat) (RESERVATION_TTL : Z) (tenant_id : string)
    (resources : gmap string BaseResource.t) (deltas : gmap string Z)
    (w : World) (e : exn) :
  let out := make_reservation MAX_RETRIES RESERVATION_TTL tenant_id
                              resources deltas w in
  out.1 = Raise e → db out.2 = db w.
Proof.
  intros out Hraise. subst out.
  destruct (make_reservation_last_attempt MAX_RETRIES RESERVATION_TTL
              tenant_id resources deltas w) as (wn & Hrun & Hdb).
  rewrite Hrun in *. rewrite <- Hdb.
  destruct (make_reservation_once_sleeps RESERVATION_TTL tenant_id
              resources deltas wn) as [_ Hkeep].
  by apply (Hkeep e).
Qed.

Lemma make_reservation_failure_leaves_store_witness :
  db (make_reservation 10 120000 "t1" Samples.ports10 {["port" := 10]}
        Expiry.after_expiry).2
  = db Expiry.after_expiry.
Proof.
  refine (make_reservation_failure_leaves_store 10 120000 "t1"
            Samples.ports10 {["port" := 10]} Expiry.after_expiry
            (OverQuota ["port"]) _).
  by vm_compute.
Defined.

(** X14: whatever the contention and the outcome, [make_reservation] for a
    tenant leaves the quota table and the reservation rows of every other
    tenant exactly as they were. *)
Theorem make_reservation_other_tenants_untouched
    (MAX_RETRIES : nat) (RESERVATION_TTL : Z) (tenant_id : string)
    (resources : gmap string BaseResource.t) (deltas : gmap string Z)
    (w : World) :
  let out := make_reservation MAX_RETRIES RESERVATION_TTL tenant_id
                              resources deltas w in
  quotas (db out.2) = quotas (db w)
  ∧ filter (λ r, resv_tenant_id r ≠ tenant_id) (reservations (db out.2))
    = filter (λ r, resv_tenant_id r ≠ tenant_id) (reservations (db w)).
Proof.
  intros out. subst out.
  destruct (make_reservation_last_attempt MAX_RETRIES RESERVATION_TTL
              tenant_id resources deltas w) as (wn & Hrun & Hdb).
  rewrite Hrun, <- Hdb.
  apply (make_reservation_once_same_for_others RESERVATION_TTL tenant_id
           resources deltas wn).
Qed.

(** X15: a request without deltas is granted whatever the store holds and
    whatever its contention: nothing is counted, and a reservation row
    with no deltas is added to the store. *)
Theorem make_reservation_empty_request
    (MAX_RETRIES : nat) (RESERVATION_TTL : Z) (tenant_id : string)
    (resources : gmap string BaseResource.t) (w : World) :
  let out := make_reservation MAX_RETRIES RESERVATION_TTL tenant_id
                              resources ∅ w in
  ∃ resv,
    out.1 = Return resv
    ∧ resv_deltas resv = ∅
    ∧ reservations (db out.2) = reservations (db w) ++ [resv]
    ∧ calls out.2 = calls w ++ [CreateReservationCall (resv_id resv)].
Proof.
  intros out. subst out. rewrite make_reservation_all_unlimited.
  - rewrite create_reservation_run. by eexists.
  - rewrite dom_empty_L. apply empty_subseteq.
Qed.

(** *** Unregistered resources *)

Section Unregistered.
Variable MAX_RETRIES : nat.
Variable RESERVATION_TTL : Z.
Variable tenant_id : string.
Variable resources : gmap string BaseResource.t.
Variable deltas : gmap string Z.

Lemma count_usages_missing rs acc w :
  contention w = [] →
  (∃ r, r ∈ rs ∧ resources !! r = None) →
  ∃ k cs,
    count_usages resources tenant_id rs acc w
      = (Raise (KeyError k), add_calls cs w)
    ∧ k ∈ rs ∧ resources !! k = None
    ∧ Forall (λ c, ∃ r, c = CountCall r) cs.
Proof.
  revert acc w. induction rs as [|r rs IH]; intros acc w Hq (r0 & Hr0 & Hnone).
  { by apply elem_of_nil in Hr0. }
  destruct (resources !! r) as [res|] eqn:Hres.
  - apply elem_of_cons in Hr0 as [->|Hr0]; [congruence|].
    destruct (IH (<[r := BaseResource.count res (utcnow w) (db w) tenant_id]>
                   acc) (add_calls [CountCall r] w))
      as (k & cs & Hrun & Hk & Hkn & Hcs); [done|by exists r0|].
    exists k, ([CountCall r] ++ cs). split_and!; [|by right|done|].
    + simpl. rewrite (bind_Return _ _ _ _ _ (count_quiet tenant_id resources
                                               r res w Hq Hres)).
      rewrite Hrun. by rewrite add_calls_app.
    + apply Forall_app. split; [|done]. apply Forall_singleton. by exists r.
  - exists r, []. split_and!; [|left|done|constructor].
    simpl. rewrite add_calls_nil.
    apply bind_Raise. unfold count. apply bind_Raise.
    by apply getitem_None.
Qed.
End Unregistered.

(** X16: when a requested resource that is not unlimited for the tenant is
    missing from the registry, [make_reservation] on a store without
    contention ends in [KeyError] for such a resource; the store is left as
    it was and nothing but counts was asked of it. *)
Theorem make_reservation_unregistered_resource
    (MAX_RETRIES : nat) (RESERVATION_TTL : Z) (tenant_id : string)
    (resources : gmap string BaseResource.t) (deltas : gmap string Z)
    (w : World) :
  contention w = [] →
  (∃ r, r ∈ requested_resources tenant_id resources deltas w
        ∧ resources !! r = None) →
  let out := make_reservation MAX_RETRIES RESERVATION_TTL tenant_id
                              resources deltas w in
  ∃ k cs,
    out.1 = Raise (KeyError k)
    ∧ k ∈ requested_resources tenant_id resources deltas w
    ∧ resources !! k = None
    ∧ db out.2 = db w
    ∧ calls out.2 = calls w ++ cs
    ∧ Forall (λ c, ∃ r, c = CountCall r) cs.
Proof.
  intros Hq (r0 & Hr0 & Hnone) out.
  destruct (count_usages_missing tenant_id resources
              (elements (requested_resources tenant_id resources deltas w))
              ∅ w Hq) as (k & cs & Hrun & Hk & Hkn & Hcs).
  { exists r0. by rewrite elem_of_elements. }
  assert (make_reservation_once RESERVATION_TTL tenant_id resources deltas w
          = (Raise (KeyError k), add_calls cs w)) as Honce.
  { unfold make_reservation_once, transaction.
    rewrite (bind_Return _ _ w (current_limits tenant_id resources w) w)
      by done.
    fold (unlimited_resources tenant_id resources w).
    fold (requested_resources tenant_id resources deltas w).
    by rewrite (bind_Raise _ _ _ _ _ Hrun). }
  assert (out = (Raise (KeyError k), add_calls cs w)) as ->.
  { subst out. unfold make_reservation, wrap_db_retry.
    by eapply retry_loop_unexpected. }
  exists k, cs. split_and!; [done| |done..].
  by apply elem_of_elements.
Qed.

Lemma make_reservation_unregistered_resource_witness :
  let w := Samples.world_of Samples.empty_db 0 in
  let deltas : gmap string Z := <["subnet" := 1]> {["port" := 1]} in
  let out := make_reservation 10 120000 "t1" Samples.ports10 deltas w in
  ∃ k cs,
    out.1 = Raise (KeyError k)
    ∧ k ∈ requested_resources "t1" Samples.ports10 deltas w
    ∧ Samples.ports10 !! k = None
    ∧ db out.2 = db w
    ∧ calls out.2 = calls w ++ cs
    ∧ Forall (λ c, ∃ r, c = CountCall r) cs.
Proof.
  refine (make_reservation_unregistered_resource 10 120000 "t1"
            Samples.ports10 (<["subnet" := 1]> {["port" := 1]})
            (Samples.world_of Samples.empty_db 0) _ _).
  - reflexivity.
  - exists "subnet". split; [|by vm_compute].
    apply (bool_decide_unpack _). by vm_compute.
Defined.

(** X17: on a store without contention and with a registry that covers the
    request, a granted request stays granted when its deltas are lowered:
    a request for the same resources with deltas that are nowhere larger
    is granted as well. *)
Theorem make_reservation_monotone
    (MAX_RETRIES : nat) (RESERVATION_TTL : Z) (tenant_id : string)
    (resources : gmap string BaseResource.t) (deltas deltas' : gmap string Z)
    (w : World) :
  contention w = [] → dom deltas ⊆ dom resources →
  dom deltas' = dom deltas →
  (∀ r d d', deltas !! r = Some d → deltas' !! r = Some d' → d' ≤ d) →
  (∃ resv, (make_reservation MAX_RETRIES RESERVATION_TTL tenant_id
              resources deltas w).1 = Return resv) →
  ∃ resv', (make_reservation MAX_RETRIES RESERVATION_TTL tenant_id
              resources deltas' w).1 = Return resv'.
Proof.
  intros Hq Hcov Hdom Hle [resv Hgranted].
  assert (dom deltas' ⊆ dom resources) as Hcov' by by rewrite Hdom.
  destruct (make_reservation_decision MAX_RETRIES RESERVATION_TTL tenant_id
              resources deltas w Hq Hcov)
    as [(Hnone & _)|(_ & overs & Hout & _)]; [|congruence].
  destruct (make_reservation_decision MAX_RETRIES RESERVATION_TTL tenant_id
              resources deltas' w Hq Hcov')
    as [(_ & resv' & Hout' & _)|((r & Hr) & _)]; [by exists resv'|].
  destruct (Hnone r). destruct Hr as (Hin & Hlim & Hhead).
  rewrite Hdom in Hin. split_and!; [done..|].
  pose proof Hin as Hin'. rewrite <- Hdom in Hin'.
  apply elem_of_dom in Hin as [d Hd]. apply elem_of_dom in Hin' as [d' Hd'].
  unfold requested_delta in *. rewrite Hd. rewrite Hd' in Hhead. simpl in *.
  specialize (Hle r d d' Hd Hd'). lia.
Qed.

Lemma make_reservation_monotone_witness :
  ∃ resv', (make_reservation 10 120000 "t1" Samples.ports10
              {["port" := 2]} Scenes.pending_world).1 = Return resv'.
Proof.
  refine (make_reservation_monotone 10 120000 "t1" Samples.ports10
            {["port" := 3]} {["port" := 2]} Scenes.pending_world
            _ _ _ _ _).
  - reflexivity.
  - apply (bool_decide_unpack _). by vm_compute.
  - apply (bool_decide_unpack _). by vm_compute.
  - intros r d d' Hd Hd'.
    apply lookup_singleton_Some in Hd as [_ <-].
    apply lookup_singleton_Some in Hd' as [_ <-]. lia.
  - eexists. by vm_compute.
Defined.

(** *** The order of iteration *)

Lemma sorted_Permutation (l1 l2 : list string) :
  l1 ≡ₚ l2 → sorted l1 = sorted l2.
Proof.
  intros Hperm. unfold sorted.
  apply (Sorted_unique String.le).
  - apply Sorted_merge_sort. apply _.
  - apply Sorted_merge_sort. apply _.
  - by rewrite !merge_sort_Permutation.
Qed.

Section Ordering.
Variable RESERVATION_TTL : Z.
Variable tenant_id : string.
Variable resources : gmap string BaseResource.t.
Variable deltas : gmap string Z.
Variable order : list string → list string.
Hypothesis order_perm : ∀ l, order l ≡ₚ l.

Definition iterated (w : World) : list string :=
  order (elements (requested_resources tenant_id resources deltas w)).

Lemma iterated_elem w r :
  r ∈ iterated w ↔
  r ∈ elements (requested_resources tenant_id resources deltas w).
Proof. unfold iterated. by rewrite order_perm. Qed.

Lemma make_reservation_iterating_quiet w :
  contention w = [] → dom deltas ⊆ dom resources →
  let short :=
    filter (λ r, headroom tenant_id resources w r < requested_delta deltas r)
           (iterated w) in
  let n := length (filter (λ r, expired_delta tenant_id w r ≠ 0)
                          (iterated w)) in
  let cs := (CountCall <$> iterated w)
            ++ replicate n (RemoveExpiredCall tenant_id) in
  make_reservation_iterating order RESERVATION_TTL tenant_id resources
                             deltas w =
  match short with
  | _ :: _ => (Raise (OverQuota (sorted short)), add_calls cs w)
  | [] =>
      let d := if decide (n = 0%nat) then db w
               else reclaimed_db tenant_id (utcnow w) (db w) in
      let id := next_reservation_id d in
      let resv := mkReservation id tenant_id (utcnow w + RESERVATION_TTL)
                                deltas in
      (Return resv,
       mkWorld (mkDB (quotas d) (reservations d ++ [resv]) (S id))
               (utcnow w) (contention w)
               (calls w ++ cs ++ [CreateReservationCall id]))
  end.
Proof.
  intros Hq Hcov short n cs.
  assert (∀ r, r ∈ iterated w →
            resources !! r ≠ None
            ∧ current_limits tenant_id resources w !! r
              = Some (effective_limit tenant_id resources w r)
            ∧ deltas !! r = Some (requested_delta deltas r)) as Hlook.
  { intros r Hr. apply iterated_elem in Hr.
    by apply requested_lookups. }
  unfold make_reservation_iterating, transaction.
  rewrite (bind_Return _ _ w (current_limits tenant_id resources w) w)
    by done.
  fold (unlimited_resources tenant_id resources w).
  fold (requested_resources tenant_id resources deltas w).
  fold (iterated w).
  destruct (count_usages_quiet tenant_id resources (iterated w) ∅ w Hq)
    as (usages & Hcount & Husage & _).
  { intros r Hr. by apply Hlook. }
  rewrite (bind_Return _ _ _ _ _ Hcount).
  destruct (get_reservations_for_resources_run tenant_id
    (requested_resources tenant_id resources deltas w)
    (add_calls (CountCall <$> iterated w) w))
    as (expired_deltas & Hexp & Hdelta).
  rewrite (bind_Return _ _ _ _ _ Hexp).
  rewrite (bind_Return _ _ _ _ _
    (check_headroom_run tenant_id deltas
       (current_limits tenant_id resources w) usages expired_deltas
       (effective_limit tenant_id resources w)
       (counted_usage tenant_id resources w)
       (expired_delta tenant_id w) (requested_delta deltas)
       (iterated w) [] _
       (λ r Hr, proj1 (proj2 (Hlook r Hr))) Husage
       (λ r Hr, Hdelta r (proj1 (elem_of_elements
          (requested_resources tenant_id resources deltas w) r)
          (proj1 (iterated_elem w r) Hr)))
       (λ r Hr, proj2 (proj2 (Hlook r Hr))))).
  rewrite reclaim_for_world. cbv zeta.
  change (filter (λ r, effective_limit tenant_id resources w r
                       - (counted_usage tenant_id resources w r
                          - expired_delta tenant_id w r)
                       < requested_delta deltas r) (iterated w))
    with short.
  fold n.
  destruct short as [|r0 overs]; simpl.
  - subst cs. rewrite <- !app_assoc. by destruct (decide (n = 0%nat)).
  - unfold raise, add_calls. subst cs. by rewrite <- !app_assoc.
Qed.
End Ordering.

(** X18: the outcome of [make_reservation] does not depend on the order in
    which Python iterates the set of requested resources.  On a store
    without contention and with a registry that covers the request, the
    body run under any enumeration of the set gives the same result (the
    same reservation, or [OverQuota] with the same list) and the same
    store as under the enumeration of the model, and the same calls up to
    their order. *)
Theorem make_reservation_order_independent
    (RESERVATION_TTL : Z) (tenant_id : string)
    (resources : gmap string BaseResource.t) (deltas : gmap string Z)
    (order : list string → list string) (w : World) :
  (∀ l, order l ≡ₚ l) →
  contention w = [] → dom deltas ⊆ dom resources →
  let a := make_reservation_iterating order RESERVATION_TTL tenant_id
                                      resources deltas w in
  let b := make_reservation_once RESERVATION_TTL tenant_id resources
                                 deltas w in
  a.1 = b.1 ∧ db a.2 = db b.2 ∧ calls a.2 ≡ₚ calls b.2.
Proof.
  intros Hperm Hq Hcov a b. subst a b.
  rewrite (make_reservation_iterating_quiet RESERVATION_TTL tenant_id
             resources deltas order Hperm w Hq Hcov).
  change (make_reservation_once RESERVATION_TTL tenant_id resources deltas w)
    with (make_reservation_iterating (λ l, l) RESERVATION_TTL tenant_id
                                     resources deltas w).
  rewrite (make_reservation_iterating_quiet RESERVATION_TTL tenant_id
             resources deltas (λ l, l) (λ l, reflexivity l) w Hq Hcov).
  cbv zeta.
  set (rs := elements (requested_resources tenant_id resources deltas w)).
  assert (iterated tenant_id resources deltas order w ≡ₚ rs) as Hrs
    by apply Hperm.
  change (iterated tenant_id resources deltas (λ l, l) w) with rs.
  set (P := λ r, headroom tenant_id resources w r < requested_delta deltas r).
  set (E := λ r, expired_delta tenant_id w r ≠ 0).
  assert (filter P (iterated tenant_id resources deltas order w)
          ≡ₚ filter P rs) as HP by by rewrite Hrs.
  assert (length (filter E (iterated tenant_id resources deltas order w))
          = length (filter E rs)) as HE by by rewrite Hrs.
  rewrite HE.
  destruct (filter P rs) as [|r0 overs] eqn:Hb.
  - apply Permutation_nil_r in HP. rewrite HP. simpl.
    split_and!; [done..|]. by rewrite Hrs.
  - destruct (filter P (iterated tenant_id resources deltas order w))
      as [|r1 overs'] eqn:Ha.
    { by apply Permutation_nil_l in HP. }
    simpl. split_and!; [|done|by rewrite Hrs].
    by rewrite (sorted_Permutation _ _ HP).
Qed.

Lemma make_reservation_order_independent_witness :
  let w := Samples.world_of Samples.empty_db 0 in
  let a := make_reservation_iterating reverse 120000 "t1" Scenes.three_kinds
                                      Scenes.greedy_deltas w in
  let b := make_reservation_once 120000 "t1" Scenes.three_kinds
                                 Scenes.greedy_deltas w in
  a.1 = b.1 ∧ db a.2 = db b.2 ∧ calls a.2 ≡ₚ calls b.2.
Proof.
  refine (make_reservation_order_independent 120000 "t1" Scenes.three_kinds
            Scenes.greedy_deltas reverse
            (Samples.world_of Samples.empty_db 0) _ _ _).
  - intros l. apply reverse_Permutation.
  - reflexivity.
  - apply (bool_decide_unpack _). by vm_compute.
Defined.

(** X19: on a store without contention and with a registry that covers the
    request, one call of [make_reservation] first counts every requested
    resource that is not unlimited, each exactly once and no other, then
    asks the store for reclamation once for every such resource whose
    expired amounts do not sum to zero (so possibly several times in one
    call), and last, only if it grants, asks for the one creation. *)
Theorem make_reservation_calls
    (MAX_RETRIES : nat) (RESERVATION_TTL : Z) (tenant_id : string)
    (resources : gmap string BaseResource.t) (deltas : gmap string Z)
    (w : World) :
  contention w = [] → dom deltas ⊆ dom resources →
  let out := make_reservation MAX_RETRIES RESERVATION_TTL tenant_id
                              resources deltas w in
  ∃ counted tail,
    calls out.2
    = calls w ++ (CountCall <$> counted)
      ++ replicate (length (filter (λ r, expired_delta tenant_id w r ≠ 0)
                                   counted))
                   (RemoveExpiredCall tenant_id)
      ++ tail
    ∧ NoDup counted
    ∧ (∀ r, r ∈ counted ↔
            r ∈ dom deltas
            ∧ ¬ ∃ limit, reported_limit resources tenant_id w r = Some limit
                         ∧ limit < 0)
    ∧ match out.1 with
      | Return resv => tail = [CreateReservationCall (resv_id resv)]
      | Raise _ => tail = []
      end.
Proof.
  intros Hq Hcov out. subst out.
  rewrite (make_reservation_quiet MAX_RETRIES RESERVATION_TTL tenant_id
             resources deltas w Hq Hcov).
  rewrite (make_reservation_once_quiet RESERVATION_TTL tenant_id resources
             deltas w Hq Hcov).
  exists (elements (requested_resources tenant_id resources deltas w)).
  assert (∀ r, r ∈ elements (requested_resources tenant_id resources deltas w)
            ↔ r ∈ dom deltas
              ∧ ¬ ∃ limit, reported_limit resources tenant_id w r = Some limit
                           ∧ limit < 0) as Helem.
  { intros r. rewrite elem_of_elements. unfold requested_resources.
    rewrite elem_of_difference, elem_of_unlimited. done. }
  destruct (short_of_headroom tenant_id resources deltas w); simpl.
  - eexists. split_and!; [|apply NoDup_elements|done|reflexivity].
    unfold calls_before_decision, reclamations.
    by rewrite <- !app_assoc.
  - exists []. split_and!; [|apply NoDup_elements|done..].
    unfold calls_before_decision, reclamations.
    by rewrite app_nil_r.
Qed.

Lemma make_reservation_calls_witness :
  let w := Expiry.after_expiry in
  let out := make_reservation 10 120000 "t1" Samples.ports10
                              {["port" := 1]} w in
  ∃ counted tail,
    calls out.2
    = calls w ++ (CountCall <$> counted)
      ++ replicate (length (filter (λ r, expired_delta "t1" w r ≠ 0)
                                   counted))
                   (RemoveExpiredCall "t1")
      ++ tail
    ∧ NoDup counted
    ∧ (∀ r, r ∈ counted ↔
            r ∈ dom ({["port" := 1]} : gmap string Z)
            ∧ ¬ ∃ limit, reported_limit Samples.ports10 "t1" w r = Some limit
                         ∧ limit < 0)
    ∧ match out.1 with
      | Return resv => tail = [CreateReservationCall (resv_id resv)]
      | Raise _ => tail = []
      end.
Proof.
  refine (make_reservation_calls 10 120000 "t1" Samples.ports10
            {["port" := 1]} Expiry.after_expiry _ _).
  - reflexivity.
  - apply (bool_decide_unpack _). by vm_compute.
Defined.
